(** * Gravity simulation: the physics and merge engine of [main.py]

    A shallow embedding of the [Body] class, the module-level [bodies] list,
    [Body.update], [Body.merge], [add_planet], [add_asteroid] and the update
    pass of the main loop, followed by the properties of the engine.

    Modelling conventions.
    - Python numbers (int and float alike) are modelled by the real numbers
      [R]; every formula is read as exact real arithmetic.
    - Python objects have identity.  A [Body] object is a reference ([ref])
      into an object store ([heap]); the global list [bodies] is a list of
      references, so that [is], [in] and [list.remove] compare identities
      and two names of one object alias.
    - A statement that can raise [ZeroDivisionError] is modelled in an error
      monad ([result]); the only loop whose length is not fixed in advance
      (the [for other in bodies] scan, whose list is mutated by [merge] while
      it is iterated) runs on fuel, and is shown never to exhaust it. *)

From Stdlib Require Import Reals Lra Lia List ZArith Bool Arith Psatz.
Import ListNotations.
Open Scope R_scope.

(** ** Results of fallible code *)

Inductive exn : Type :=
| ZeroDivisionError
| ValueError.

Inductive result (A : Type) : Type :=
| Ok (a : A)
| Raise (e : exn)
| OutOfFuel.

Arguments Ok {A} a.
Arguments Raise {A} e.
Arguments OutOfFuel {A}.

Definition bind {A B : Type} (m : result A) (k : A -> result B) : result B :=
  match m with
  | Ok a => k a
  | Raise e => Raise e
  | OutOfFuel => OutOfFuel
  end.

Notation "v <- m ;; k" := (bind m (fun v => k))
  (at level 61, m at next level, right associativity).

(** Python's [a / b]: raises on a zero divisor. *)
Definition div (a b : R) : result R :=
  if Req_dec_T b 0 then Raise ZeroDivisionError else Ok (a / b).

(** ** The [math] functions the program calls *)

(** [math.sqrt(a)]: raises on a negative argument. *)
Definition math_sqrt (a : R) : result R :=
  if Rlt_dec a 0 then Raise ValueError else Ok (sqrt a).

(** [math.hypot(dx, dy)]. *)
Definition hypot (dx dy : R) : R := sqrt (dx * dx + dy * dy).

(** [math.atan2(y, x)], the angle of the point [(x, y)] in (-pi, pi]. *)
Definition atan2 (y0 x0 : R) : R :=
  if Rlt_dec 0 x0 then atan (y0 / x0)
  else if Rlt_dec x0 0 then
    (if Rlt_dec y0 0 then atan (y0 / x0) - PI else atan (y0 / x0) + PI)
  else if Rlt_dec 0 y0 then PI / 2
  else if Rlt_dec y0 0 then - (PI / 2)
  else 0.

(** ** Module constants *)

Definition WIDTH : R := 1200.
Definition HEIGHT : R := 800.

(** [G = 6.67430e-1]. *)
Definition G : R := 66743 / 100000.

(** ** The [Body] class and the object store *)

Definition ref : Type := nat.
Bind Scope nat_scope with ref.

Record Body : Type := mkBody {
  x : R;
  y : R;
  radius : R;
  color : Z * Z * Z;
  mass : R;
  vx : R;
  vy : R;
  is_static : bool;
  trail : list (R * R)
}.

(** [Body.__init__]: stores its arguments, starts with an empty trail. *)
Definition Body_init (x0 y0 radius0 : R) (color0 : Z * Z * Z) (mass0 : R)
    (vx0 vy0 : R) (is_static0 : bool) : Body :=
  mkBody x0 y0 radius0 color0 mass0 vx0 vy0 is_static0 [].

Definition set_x (v : R) (b : Body) : Body :=
  mkBody v (y b) (radius b) (color b) (mass b) (vx b) (vy b) (is_static b) (trail b).
Definition set_y (v : R) (b : Body) : Body :=
  mkBody (x b) v (radius b) (color b) (mass b) (vx b) (vy b) (is_static b) (trail b).
Definition set_radius (v : R) (b : Body) : Body :=
  mkBody (x b) (y b) v (color b) (mass b) (vx b) (vy b) (is_static b) (trail b).
Definition set_mass (v : R) (b : Body) : Body :=
  mkBody (x b) (y b) (radius b) (color b) v (vx b) (vy b) (is_static b) (trail b).
Definition set_vx (v : R) (b : Body) : Body :=
  mkBody (x b) (y b) (radius b) (color b) (mass b) v (vy b) (is_static b) (trail b).
Definition set_vy (v : R) (b : Body) : Body :=
  mkBody (x b) (y b) (radius b) (color b) (mass b) (vx b) v (is_static b) (trail b).
Definition set_trail (v : list (R * R)) (b : Body) : Body :=
  mkBody (x b) (y b) (radius b) (color b) (mass b) (vx b) (vy b) (is_static b) v.

(** The program state: the object store, the globals [bodies], [paused],
    [zoom], [offset_x], [offset_y], and the next unused object identity. *)
Record World : Type := mkWorld {
  heap : ref -> Body;
  bodies : list ref;
  paused : bool;
  zoom : R;
  offset_x : R;
  offset_y : R;
  next_ref : ref
}.

Definition upd (h : ref -> Body) (r : ref) (b : Body) : ref -> Body :=
  fun r' => if Nat.eqb r' r then b else h r'.

(** An attribute assignment [r.attr = ...]: one object changes in place, and
    every name of that object sees the change. *)
Definition modify (r : ref) (f : Body -> Body) (w : World) : World :=
  mkWorld (upd (heap w) r (f (heap w r))) (bodies w) (paused w)
          (zoom w) (offset_x w) (offset_y w) (next_ref w).

Definition set_bodies (l : list ref) (w : World) : World :=
  mkWorld (heap w) l (paused w) (zoom w) (offset_x w) (offset_y w) (next_ref w).

(** [r in bodies] (identity comparison: [Body] defines no [__eq__]). *)
Definition in_bodies (r : ref) (w : World) : bool :=
  existsb (Nat.eqb r) (bodies w).

(** [list.remove]: deletes the first occurrence. *)
Fixpoint list_remove (r : ref) (l : list ref) : list ref :=
  match l with
  | [] => []
  | a :: t => if Nat.eqb a r then t else a :: list_remove r t
  end.

(** [if r in bodies: bodies.remove(r)]. *)
Definition remove_if_present (r : ref) (w : World) : World :=
  if in_bodies r w then set_bodies (list_remove r (bodies w)) w else w.

(** ** [Body.merge] *)

(** The statements run in the source's order, each reading the store the
    previous one left: the mass of the absorbing body is increased first,
    and the velocity assignments read the increased mass.  The argument of
    [math.sqrt] is a sum of two squares, never negative ([sum_sq_nonneg]
    below), so that call cannot raise and is written [sqrt]. *)
Definition merge (self other : ref) (w : World) : result World :=
  if is_static (heap w other) then Ok w
  else if Rlt_dec (mass (heap w self)) (mass (heap w other)) then
    let w1 := modify other
                (set_mass (mass (heap w other) + mass (heap w self))) w in
    nvx <- div (vx (heap w1 other) * mass (heap w1 other)
                + vx (heap w1 self) * mass (heap w1 self))
               (mass (heap w1 self) + mass (heap w1 other)) ;;
    let w2 := modify other (set_vx nvx) w1 in
    nvy <- div (vy (heap w2 other) * mass (heap w2 other)
                + vy (heap w2 self) * mass (heap w2 self))
               (mass (heap w2 self) + mass (heap w2 other)) ;;
    let w3 := modify other (set_vy nvy) w2 in
    let w4 := modify other
                (set_radius (sqrt (radius (heap w3 other) ^ 2
                                   + radius (heap w3 self) ^ 2))) w3 in
    Ok (remove_if_present self w4)
  else
    let w1 := modify self
                (set_mass (mass (heap w self) + mass (heap w other))) w in
    nvx <- div (vx (heap w1 self) * mass (heap w1 self)
                + vx (heap w1 other) * mass (heap w1 other))
               (mass (heap w1 self) + mass (heap w1 other)) ;;
    let w2 := modify self (set_vx nvx) w1 in
    nvy <- div (vy (heap w2 self) * mass (heap w2 self)
                + vy (heap w2 other) * mass (heap w2 other))
               (mass (heap w2 self) + mass (heap w2 other)) ;;
    let w3 := modify self (set_vy nvy) w2 in
    let w4 := modify self
                (set_radius (sqrt (radius (heap w3 self) ^ 2
                                   + radius (heap w3 other) ^ 2))) w3 in
    Ok (remove_if_present other w4).

(** ** [Body.update] *)

(** The body of [for other in bodies:], with the force accumulated so far
    in [f = (fx, fy)]. *)
Definition scan_body (self other : ref) (f : R * R) (w : World)
    : result (R * R * World) :=
  if Nat.eqb other self then Ok (f, w)
  else
    let dx := x (heap w other) - x (heap w self) in
    let dy := y (heap w other) - y (heap w self) in
    let distance := hypot dx dy in
    if Req_dec_T distance 0 then Ok (f, w)
    else if Rlt_dec distance (radius (heap w self) + radius (heap w other)) then
      w' <- merge self other w ;;
      Ok (f, w')
    else
      force <- div (G * mass (heap w self) * mass (heap w other))
                   (distance ^ 2) ;;
      let angle := atan2 dy dx in
      Ok ((fst f + cos angle * force, snd f + sin angle * force), w).

(** The [for] loop itself.  Python's list iterator keeps an index [i] into
    the live list: each round it reads [bodies[i]] from the list as it is
    then (after any removal a merge made) and stops once [i] is at or past
    the end. *)
Fixpoint scan (fuel : nat) (self : ref) (i : nat) (f : R * R) (w : World)
    : result (R * R * World) :=
  match fuel with
  | O => OutOfFuel
  | S fuel' =>
      match nth_error (bodies w) i with
      | None => Ok (f, w)
      | Some other =>
          r <- scan_body self other f w ;;
          scan fuel' self (S i) (fst r) (snd r)
      end
  end.

(** The statements after the loop: apply the force, move, extend the
    trail and keep at most 150 entries of it. *)
Definition integrate (self : ref) (f : R * R) (w : World) : result World :=
  ax <- div (fst f) (mass (heap w self)) ;;
  let w1 := modify self (set_vx (vx (heap w self) + ax)) w in
  ay <- div (snd f) (mass (heap w1 self)) ;;
  let w2 := modify self (set_vy (vy (heap w1 self) + ay)) w1 in
  let w3 := modify self (set_x (x (heap w2 self) + vx (heap w2 self))) w2 in
  let w4 := modify self (set_y (y (heap w3 self) + vy (heap w3 self))) w3 in
  let w5 := modify self
              (set_trail (trail (heap w4 self)
                          ++ [(x (heap w4 self), y (heap w4 self))])) w4 in
  Ok (if Nat.ltb 150 (length (trail (heap w5 self)))
      then modify self (set_trail (tl (trail (heap w5 self)))) w5
      else w5).

Definition update (self : ref) (w : World) : result World :=
  if is_static (heap w self) || paused w then Ok w
  else
    r <- scan (S (length (bodies w))) self 0 (0, 0) w ;;
    integrate self (fst r) (snd r).

(** ** The update pass of the main loop *)

(** [for body in bodies[:]: body.update()] walks a copy of the list made
    before the first update ([body.draw()] only renders). *)
Fixpoint update_all (snapshot : list ref) (w : World) : result World :=
  match snapshot with
  | [] => Ok w
  | body :: rest => w' <- update body w ;; update_all rest w'
  end.

Definition tick (w : World) : result World := update_all (bodies w) w.

Fixpoint ticks (n : nat) (w : World) : result World :=
  match n with
  | O => Ok w
  | S n' => w' <- tick w ;; ticks n' w'
  end.

(** ** Spawning *)

(** [Body(...)] followed by [bodies.append(...)]: a new object, with an
    identity no other object has, at the end of the list. *)
Definition spawn (b : Body) (w : World) : World :=
  mkWorld (upd (heap w) (next_ref w) b) (bodies w ++ [next_ref w]) (paused w)
          (zoom w) (offset_x w) (offset_y w) (S (next_ref w)).

(** The global [sun] is the first object the program creates. *)
Definition sun : ref := 0%nat.

Definition sun_body : Body :=
  Body_init 0 0 20 (255, 204, 0)%Z 10000 0 0 true.

(** The state after [bodies.append(sun)], before the main loop starts. *)
Definition initial_world : World :=
  mkWorld (fun _ => sun_body) [sun] false 1 0 0 1%nat.

(** [add_planet(pos)].  The two random draws, [random.uniform(0, 2*pi)] and
    [random.randint(100, 400)], are the arguments [angle] and [dist]; [pos]
    is [None] or the pixel position of the mouse. *)
Definition add_planet (pos : option (Z * Z)) (angle : R) (dist : Z) (w : World)
    : result World :=
  let x0 := cos angle * IZR dist in
  let y0 := sin angle * IZR dist in
  xy <- match pos with
        | Some (mx, my) =>
            px <- div (IZR mx - WIDTH / 2) (zoom w) ;;
            py <- div (IZR my - HEIGHT / 2) (zoom w) ;;
            Ok (px - offset_x w, py - offset_y w)
        | None => Ok (x0, y0)
        end ;;
  let distance := hypot (fst xy) (snd xy) in
  q <- div (G * mass (heap w sun)) distance ;;
  speed <- math_sqrt q ;;
  let vx0 := - sin angle * speed in
  let vy0 := cos angle * speed in
  Ok (spawn (Body_init (fst xy) (snd xy) 6 (0, 150, 255)%Z 5 vx0 vy0 false) w).

(** [add_asteroid()], with its four random draws as arguments. *)
Definition add_asteroid (rx ry : Z) (rvx rvy : R) (w : World) : World :=
  spawn (Body_init (IZR rx) (IZR ry) 3 (150, 150, 150)%Z 1 rvx rvy false) w.

(** ** Auxiliary definitions for the statements *)

(** The two branches of [merge] run the same statements with the roles of
    [self] and [other] exchanged; [absorb winner loser] is that block. *)
Definition absorb (winner loser : ref) (w : World) : result World :=
  let w1 := modify winner
              (set_mass (mass (heap w winner) + mass (heap w loser))) w in
  nvx <- div (vx (heap w1 winner) * mass (heap w1 winner)
              + vx (heap w1 loser) * mass (heap w1 loser))
             (mass (heap w1 loser) + mass (heap w1 winner)) ;;
  let w2 := modify winner (set_vx nvx) w1 in
  nvy <- div (vy (heap w2 winner) * mass (heap w2 winner)
              + vy (heap w2 loser) * mass (heap w2 loser))
             (mass (heap w2 loser) + mass (heap w2 winner)) ;;
  let w3 := modify winner (set_vy nvy) w2 in
  let w4 := modify winner
              (set_radius (sqrt (radius (heap w3 winner) ^ 2
                                 + radius (heap w3 loser) ^ 2))) w3 in
  Ok (remove_if_present loser w4).

(** What the absorbing body looks like after [absorb], from the two bodies
    before it: the velocity is weighted with the absorbing body's mass
    AFTER the addition and the absorbed body's own mass. *)
Definition merged_body (bw bl : Body) : Body :=
  mkBody (x bw) (y bw)
         (sqrt (radius bw ^ 2 + radius bl ^ 2))
         (color bw)
         (mass bw + mass bl)
         ((vx bw * (mass bw + mass bl) + vx bl * mass bl)
          / (mass bl + (mass bw + mass bl)))
         ((vy bw * (mass bw + mass bl) + vy bl * mass bl)
          / (mass bl + (mass bw + mass bl)))
         (is_static bw) (trail bw).

(** The body [merge] lets survive when it resolves a collision. *)
Definition winner_of (self other : ref) (w : World) : ref :=
  if Rlt_dec (mass (heap w self)) (mass (heap w other)) then other else self.

Definition loser_of (self other : ref) (w : World) : ref :=
  if Rlt_dec (mass (heap w self)) (mass (heap w other)) then self else other.

(** Total mass of the live bodies. *)
Definition total_mass (w : World) : R :=
  fold_right (fun r acc => mass (heap w r) + acc) 0 (bodies w).

(** A world holding the given bodies, in list order, as its live
    collection: object [i] is the [i]-th body.  Camera at rest, running. *)
Definition world_of (bs : list Body) : World :=
  mkWorld (fun r => nth r bs sun_body) (seq 0 (length bs)) false 1 0 0
          (length bs).

(** Bodies as the spawners make them, at rest unless a velocity is given. *)
Definition planet_at (x0 y0 vx0 vy0 : R) : Body :=
  Body_init x0 y0 6 (0, 150, 255)%Z 5 vx0 vy0 false.

Definition asteroid_at (x0 y0 vx0 vy0 : R) : Body :=
  Body_init x0 y0 3 (150, 150, 150)%Z 1 vx0 vy0 false.

(** The pair of the momentum test: masses 3 and 1, velocities (2, 0) and
    (0, 4), discs that overlap. *)
Definition momentum_pair : World :=
  world_of [ Body_init 0 0 2 (0, 0, 0)%Z 3 2 0 false;
             Body_init 1 0 1 (0, 0, 0)%Z 1 0 4 false ].

(** The sun and a planet whose disc overlaps the sun's. *)
Definition sun_and_planet : World :=
  world_of [ sun_body; planet_at 10 0 0 0 ].

(** The distance [update] computes between the subject and another body. *)
Definition distance_to (self other : ref) (w : World) : R :=
  hypot (x (heap w other) - x (heap w self)) (y (heap w other) - y (heap w self)).

(** The two discs overlap without their centers coinciding: the condition
    under which [update] calls [merge]. *)
Definition colliding (self other : ref) (w : World) : Prop :=
  other <> self
  /\ 0 < distance_to self other w
       < radius (heap w self) + radius (heap w other).

(** Two bodies at the same place. *)
Definition coincident_pair : World :=
  world_of [ asteroid_at 5 5 0 0; asteroid_at 5 5 1 0 ].

(** What a step of the program leaves alone when it runs from [w] to [w']:
    no body changes its static flag, and a static body keeps every
    attribute and its place in the live collection. *)
Definition static_frame (w w' : World) : Prop :=
  (forall r, is_static (heap w' r) = is_static (heap w r))
  /\ (forall s, is_static (heap w s) = true ->
        heap w' s = heap w s /\ (In s (bodies w) -> In s (bodies w'))).

(** What the statements after the loop make of the subject, given the
    accumulated force. *)
Definition integrated_body (f : R * R) (b : Body) : Body :=
  let vx' := vx b + fst f / mass b in
  let vy' := vy b + snd f / mass b in
  let x' := x b + vx' in
  let y' := y b + vy' in
  let trail' := trail b ++ [(x', y')] in
  mkBody x' y' (radius b) (color b) (mass b) vx' vy' (is_static b)
         (if Nat.ltb 150 (length trail') then tl trail' else trail').

(** The invariant the spec asks of every body. *)
Definition positive_body (b : Body) : Prop := 0 < mass b /\ 0 < radius b.

(** Every object of the set [dom] has positive mass and radius. *)
Definition positive_on (dom : ref -> Prop) (w : World) : Prop :=
  forall r, dom r -> positive_body (heap w r).

(** The world [absorb] returns when it does not raise: the same
    assignments, with the quotients taken. *)
Definition absorb_world (winner loser : ref) (w : World) : World :=
  let w1 := modify winner
              (set_mass (mass (heap w winner) + mass (heap w loser))) w in
  let nvx := (vx (heap w1 winner) * mass (heap w1 winner)
              + vx (heap w1 loser) * mass (heap w1 loser))
             / (mass (heap w1 loser) + mass (heap w1 winner)) in
  let w2 := modify winner (set_vx nvx) w1 in
  let nvy := (vy (heap w2 winner) * mass (heap w2 winner)
              + vy (heap w2 loser) * mass (heap w2 loser))
             / (mass (heap w2 loser) + mass (heap w2 winner)) in
  let w3 := modify winner (set_vy nvy) w2 in
  let w4 := modify winner
              (set_radius (sqrt (radius (heap w3 winner) ^ 2
                                 + radius (heap w3 loser) ^ 2))) w3 in
  remove_if_present loser w4.

(** The world [integrate] returns when it does not raise. *)
Definition integrate_world (self : ref) (f : R * R) (w : World) : World :=
  let ax := fst f / mass (heap w self) in
  let w1 := modify self (set_vx (vx (heap w self) + ax)) w in
  let ay := snd f / mass (heap w1 self) in
  let w2 := modify self (set_vy (vy (heap w1 self) + ay)) w1 in
  let w3 := modify self (set_x (x (heap w2 self) + vx (heap w2 self))) w2 in
  let w4 := modify self (set_y (y (heap w3 self) + vy (heap w3 self))) w3 in
  let w5 := modify self
              (set_trail (trail (heap w4 self)
                          ++ [(x (heap w4 self), y (heap w4 self))])) w4 in
  if Nat.ltb 150 (length (trail (heap w5 self)))
  then modify self (set_trail (tl (trail (heap w5 self)))) w5
  else w5.

(** The sun and two asteroids at rest inside the sun's disc, one unit
    apart: the three discs overlap pairwise. *)
Definition sun_and_two_asteroids : World :=
  world_of [ sun_body; asteroid_at 3 0 0 0; asteroid_at 4 0 0 0 ].

(** That world after the first asteroid's update, and after the whole
    update pass. *)
Definition two_asteroids_mid : World :=
  integrate_world 1 (0, 0) (absorb_world 1 2 sun_and_two_asteroids).

Definition two_asteroids_end : World :=
  integrate_world 2 (0, 0) (absorb_world 1 2 two_asteroids_mid).

(** The sun, a planet at rest inside its disc, and two asteroids within
    reach of each other, the last one drifting next to the planet. *)
Definition sun_planet_two_asteroids : World :=
  world_of [ sun_body; planet_at 4 0 0 0;
             asteroid_at 2 0 0 0; asteroid_at 3 0 1 0 ].

(** That world after the last asteroid's update. *)
Definition drifting_asteroid_updated : World :=
  integrate_world 3 (0, 0)
    (absorb_world 3 2 (absorb_world 1 3 sun_planet_two_asteroids)).

(** A body of mass zero and negative radius. *)
Definition massless_body : Body := Body_init 0 0 (-1) (0, 0, 0)%Z 0 0 0 false.

(** ** The camera, the event handlers and the main loop *)

(** Python's [int(r)] on a float: truncation toward zero. *)
Definition py_int (r : R) : Z :=
  if Rlt_dec r 0 then (- Int_part (- r))%Z else Int_part r.

(** The two coordinates [Body.screen_pos] computes, before [int]. *)
Definition screen_xy (self : ref) (w : World) : R * R :=
  ((x (heap w self) + offset_x w) * zoom w + WIDTH / 2,
   (y (heap w self) + offset_y w) * zoom w + HEIGHT / 2).

(** [Body.screen_pos]. *)
Definition screen_pos (self : ref) (w : World) : Z * Z :=
  (py_int (fst (screen_xy self w)), py_int (snd (screen_xy self w))).

Definition set_paused (p : bool) (w : World) : World :=
  mkWorld (heap w) (bodies w) p (zoom w) (offset_x w) (offset_y w) (next_ref w).

Definition set_camera (z ox oy : R) (w : World) : World :=
  mkWorld (heap w) (bodies w) (paused w) z ox oy (next_ref w).

(** The keys and the events the loop looks at; everything else is
    [K_other] or [OtherEvent]. *)
Inductive Key : Type :=
| K_p | K_a | K_s | K_d | K_EQUALS | K_MINUS | K_other.

Inductive Event : Type :=
| QUIT
| KEYDOWN (key : Key)
| MOUSEBUTTONDOWN (button : Z) (pos : Z * Z)
| MOUSEBUTTONUP (button : Z)
| MOUSEMOTION (pos : Z * Z)
| OtherEvent.

(** The random values one event may consume: the two draws of
    [add_planet] and the four of [add_asteroid]. *)
Record Draws : Type := mkDraws {
  draw_angle : R;
  draw_dist : Z;
  draw_x : Z;
  draw_y : Z;
  draw_vx : R;
  draw_vy : R
}.

(** The whole state of the loop: the world and the two drag globals. *)
Record App : Type := mkApp {
  world : World;
  dragging : bool;
  drag_start : option (Z * Z)
}.

(** How a step of the loop can stop the program. *)
Inductive halt : Type :=
| SystemExit
| Uncaught (e : exn)
| TypeError
| Diverged.

Inductive outcome (A : Type) : Type :=
| Go (a : A)
| Halt (h : halt).

Arguments Go {A} a.
Arguments Halt {A} h.

Definition of_result {A : Type} (r : result A) : outcome A :=
  match r with
  | Ok a => Go a
  | Raise e => Halt (Uncaught e)
  | OutOfFuel => Halt Diverged
  end.

Definition and_then {A B : Type} (m : outcome A) (k : A -> outcome B)
    : outcome B :=
  match m with
  | Go a => k a
  | Halt h => Halt h
  end.

Definition with_world (a : App) (w : World) : App :=
  mkApp w (dragging a) (drag_start a).

(** The body of [for event in pygame.event.get():]. *)
Definition handle_event (ev : Event) (d : Draws) (a : App) : outcome App :=
  let w := world a in
  match ev with
  | QUIT => Halt SystemExit
  | KEYDOWN K_p => Go (with_world a (set_paused (negb (paused w)) w))
  | KEYDOWN K_a =>
      and_then (of_result (add_planet None (draw_angle d) (draw_dist d) w))
               (fun w' => Go (with_world a w'))
  | KEYDOWN K_s =>
      Go (with_world a
            (add_asteroid (draw_x d) (draw_y d) (draw_vx d) (draw_vy d) w))
  | KEYDOWN K_d =>
      if Nat.ltb 1 (length (bodies w))
      then Go (with_world a (set_bodies (removelast (bodies w)) w))
      else Go a
  | KEYDOWN K_EQUALS =>
      Go (with_world a (set_camera (zoom w * (11 / 10))
                                   (offset_x w) (offset_y w) w))
  | KEYDOWN K_MINUS =>
      Go (with_world a (set_camera (zoom w / (11 / 10))
                                   (offset_x w) (offset_y w) w))
  | KEYDOWN K_other => Go a
  | MOUSEBUTTONDOWN button pos =>
      if Z.eqb button 1 then
        and_then (of_result (add_planet (Some pos) (draw_angle d)
                                        (draw_dist d) w))
                 (fun w' => Go (with_world a w'))
      else if Z.eqb button 2 then
        Go (with_world a (set_camera 1 0 0 w))
      else if Z.eqb button 3 then
        Go (mkApp w true (Some pos))
      else Go a
  | MOUSEBUTTONUP button =>
      if Z.eqb button 3 then Go (mkApp w false (drag_start a)) else Go a
  | MOUSEMOTION pos =>
      if dragging a then
        match drag_start a with
        | None => Halt TypeError
        | Some start =>
            let dx := IZR (fst pos - fst start) in
            let dy := IZR (snd pos - snd start) in
            and_then (of_result (div dx (zoom w))) (fun qx =>
            let w1 := set_camera (zoom w) (offset_x w + qx) (offset_y w) w in
            and_then (of_result (div dy (zoom w1))) (fun qy =>
            let w2 := set_camera (zoom w1) (offset_x w1)
                                 (offset_y w1 + qy) w1 in
            Go (mkApp w2 (dragging a) (Some pos))))
        end
      else Go a
  | OtherEvent => Go a
  end.

(** The events of one frame, in the order [pygame.event.get()] returns
    them, each with the random values it may draw. *)
Fixpoint handle_events (evs : list (Event * Draws)) (a : App) : outcome App :=
  match evs with
  | [] => Go a
  | (ev, d) :: rest => and_then (handle_event ev d a) (handle_events rest)
  end.

(** One round of [while True:]: the events, then the update pass (drawing,
    the help text, [flip] and the frame-rate wait change nothing here). *)
Definition frame (evs : list (Event * Draws)) (a : App) : outcome App :=
  and_then (handle_events evs a) (fun a' =>
  and_then (of_result (tick (world a'))) (fun w' =>
  Go (with_world a' w'))).

Fixpoint frames (fs : list (list (Event * Draws))) (a : App) : outcome App :=
  match fs with
  | [] => Go a
  | evs :: rest => and_then (frame evs a) (frames rest)
  end.

(** The state when the loop is entered. *)
Definition initial_app : App := mkApp initial_world false None.

(** What no merge changes: the place, the colour, the static flag and the
    trail of every body. *)
Definition shape_kept (w w' : World) : Prop :=
  forall r,
    x (heap w' r) = x (heap w r)
    /\ y (heap w' r) = y (heap w r)
    /\ color (heap w' r) = color (heap w r)
    /\ is_static (heap w' r) = is_static (heap w r)
    /\ trail (heap w' r) = trail (heap w r).

(** The sum of the masses of the objects a list of references names. *)
Definition mass_sum (h : ref -> Body) (l : list ref) : R :=
  fold_right (fun r acc => mass (h r) + acc) 0 l.

(** The sun and a planet at rest well outside the sun's disc. *)
Definition sun_and_far_planet : World :=
  world_of [ sun_body; planet_at 100 0 0 0 ].

(** The globals no update touches. *)
Definition globals_kept (w w' : World) : Prop :=
  paused w' = paused w /\ zoom w' = zoom w /\ offset_x w' = offset_x w
  /\ offset_y w' = offset_y w /\ next_ref w' = next_ref w.

(** The values the random calls can return: [uniform(0, 2*pi)],
    [randint(100, 400)], [randint(-WIDTH, WIDTH)], [randint(-HEIGHT, HEIGHT)]
    and [uniform(-2, 2)] twice. *)
Definition valid_draws (d : Draws) : Prop :=
  0 <= draw_angle d <= 2 * PI
  /\ (100 <= draw_dist d <= 400)%Z
  /\ (-1200 <= draw_x d <= 1200)%Z
  /\ (-800 <= draw_y d <= 800)%Z
  /\ -2 <= draw_vx d <= 2
  /\ -2 <= draw_vy d <= 2.

Definition valid_events (evs : list (Event * Draws)) : Prop :=
  Forall (fun ed => valid_draws (snd ed)) evs.

(** The invariant of the main loop: the zoom is positive; the sun object
    is as it was created and is the first live body; no body is listed
    twice and every listed body is an object created so far; every live
    body has positive mass and radius; a drag in progress has its start. *)
Definition sound (a : App) : Prop :=
  0 < zoom (world a)
  /\ heap (world a) sun = sun_body
  /\ hd_error (bodies (world a)) = Some sun
  /\ NoDup (bodies (world a))
  /\ (forall r, In r (bodies (world a)) -> (r < next_ref (world a))%nat)
  /\ positive_on (fun r => In r (bodies (world a))) (world a)
  /\ (dragging a = true -> drag_start a <> None).

(** Draws in range, for examples. *)
Definition some_draws : Draws := mkDraws 0 100 50 0 0 0.

(** One frame in which the user pauses and then adds an asteroid, and one
    in which the window is closed. *)
Definition pause_and_add : list (list (Event * Draws)) :=
  [ [ (KEYDOWN K_p, some_draws); (KEYDOWN K_s, some_draws) ] ].


(** * Properties *)

(** ** Arithmetic and the [math] functions *)

Lemma sum_sq_nonneg (a b : R) : 0 <= a ^ 2 + b ^ 2.
Proof. nra. Qed.

Lemma div_ok (a b : R) : b <> 0 -> div a b = Ok (a / b).
Proof.
  intros Hb. unfold div. destruct (Req_dec_T b 0) as [E | _].
  - contradiction.
  - reflexivity.
Qed.

Lemma div_zero (a : R) : div a 0 = Raise ZeroDivisionError.
Proof.
  unfold div. destruct (Req_dec_T 0 0) as [_ | N].
  - reflexivity.
  - exfalso. apply N. reflexivity.
Qed.

Lemma hypot_nonneg (dx dy : R) : 0 <= hypot dx dy.
Proof. unfold hypot. apply sqrt_pos. Qed.

Lemma hypot_zero (dx dy : R) : hypot dx dy = 0 <-> dx = 0 /\ dy = 0.
Proof.
  unfold hypot. split.
  - intros H. apply sqrt_eq_0 in H; [ | nra ]. split; nra.
  - intros [-> ->]. replace (0 * 0 + 0 * 0) with 0 by ring. apply sqrt_0.
Qed.

(** On the horizontal axis the distance is the absolute difference. *)
Lemma hypot_axis (dx : R) : hypot dx 0 = Rabs dx.
Proof.
  unfold hypot. replace (dx * dx + 0 * 0) with (Rsqr dx) by (unfold Rsqr; ring).
  apply sqrt_Rsqr_abs.
Qed.

Lemma hypot_polar (a d : R) : 0 <= d -> hypot (cos a * d) (sin a * d) = d.
Proof.
  intros Hd. unfold hypot.
  replace (cos a * d * (cos a * d) + sin a * d * (sin a * d))
    with ((Rsqr (sin a) + Rsqr (cos a)) * (d * d)) by (unfold Rsqr; ring).
  rewrite sin2_cos2, Rmult_1_l. apply sqrt_square. exact Hd.
Qed.

(** The root of a sum of two squares dominates both terms. *)
Lemma sqrt_sum_sq_ge_l (a b : R) : a <= sqrt (a ^ 2 + b ^ 2).
Proof.
  apply Rle_trans with (Rabs a); [ apply Rle_abs | ].
  rewrite <- sqrt_Rsqr_abs. apply sqrt_le_1_alt. unfold Rsqr. nra.
Qed.

Lemma sqrt_sum_sq_ge_r (a b : R) : b <= sqrt (a ^ 2 + b ^ 2).
Proof.
  replace (a ^ 2 + b ^ 2) with (b ^ 2 + a ^ 2) by ring. apply sqrt_sum_sq_ge_l.
Qed.

Lemma sqrt_sum_sq_pos (a b : R) : 0 < a -> 0 < sqrt (a ^ 2 + b ^ 2).
Proof. intros Ha. apply sqrt_lt_R0. nra. Qed.

(** ** The object store *)

Lemma upd_same (h : ref -> Body) (r : ref) (b : Body) : upd h r b r = b.
Proof. unfold upd. rewrite Nat.eqb_refl. reflexivity. Qed.

Lemma upd_other (h : ref -> Body) (r r' : ref) (b : Body) :
  r' <> r -> upd h r b r' = h r'.
Proof.
  intros Hne. unfold upd. apply Nat.eqb_neq in Hne. rewrite Hne. reflexivity.
Qed.

Lemma heap_modify_same (r : ref) (f : Body -> Body) (w : World) :
  heap (modify r f w) r = f (heap w r).
Proof. apply upd_same. Qed.

Lemma heap_modify_other (r r' : ref) (f : Body -> Body) (w : World) :
  r' <> r -> heap (modify r f w) r' = heap w r'.
Proof. intros Hne. unfold modify. simpl. apply upd_other. exact Hne. Qed.

Lemma list_remove_incl (r a : ref) (l : list ref) :
  In a (list_remove r l) -> In a l.
Proof.
  induction l as [ | b t IH ]; simpl; [ tauto | ].
  destruct (Nat.eqb b r); simpl; tauto.
Qed.

Lemma list_remove_keeps (r a : ref) (l : list ref) :
  a <> r -> In a l -> In a (list_remove r l).
Proof.
  intros Hne. induction l as [ | b t IH ]; simpl; [ tauto | ].
  destruct (Nat.eqb b r) eqn:E; simpl.
  - apply Nat.eqb_eq in E. subst b. intros [H | H]; [ congruence | exact H ].
  - intros [H | H]; [ left; exact H | right; apply IH; exact H ].
Qed.

Lemma list_remove_length (r : ref) (l : list ref) :
  (length (list_remove r l) <= length l)%nat.
Proof.
  induction l as [ | b t IH ]; simpl; [ lia | ].
  destruct (Nat.eqb b r); simpl; lia.
Qed.

Lemma in_bodies_In (r : ref) (w : World) :
  in_bodies r w = true <-> In r (bodies w).
Proof.
  unfold in_bodies. rewrite existsb_exists. split.
  - intros [a [Ha E]]. apply Nat.eqb_eq in E. subst a. exact Ha.
  - intros H. exists r. split; [ exact H | apply Nat.eqb_refl ].
Qed.

Lemma heap_remove_if_present (r : ref) (w : World) :
  heap (remove_if_present r w) = heap w.
Proof. unfold remove_if_present. destruct (in_bodies r w); reflexivity. Qed.

Lemma paused_remove_if_present (r : ref) (w : World) :
  paused (remove_if_present r w) = paused w.
Proof. unfold remove_if_present. destruct (in_bodies r w); reflexivity. Qed.

Lemma list_remove_absent (r : ref) (l : list ref) :
  existsb (Nat.eqb r) l = false -> list_remove r l = l.
Proof.
  induction l as [ | b t IH ]; simpl; [ reflexivity | ].
  intros E. apply orb_false_iff in E. destruct E as [E1 E2].
  rewrite Nat.eqb_sym, E1. f_equal. apply IH. exact E2.
Qed.

Lemma bodies_remove_if_present (r : ref) (w : World) :
  bodies (remove_if_present r w) = list_remove r (bodies w).
Proof.
  unfold remove_if_present. destruct (in_bodies r w) eqn:E; [ reflexivity | ].
  symmetry. apply list_remove_absent. exact E.
Qed.

(** ** [merge] *)

Lemma bind_div_comm {A : Type} (n a b : R) (k : R -> result A) :
  bind (div n (a + b)) k = bind (div n (b + a)) k.
Proof. rewrite (Rplus_comm a b). reflexivity. Qed.

Lemma merge_unfold (self other : ref) (w : World) :
  merge self other w =
  if is_static (heap w other) then Ok w
  else if Rlt_dec (mass (heap w self)) (mass (heap w other))
       then absorb other self w
       else absorb self other w.
Proof.
  unfold merge, absorb.
  destruct (is_static (heap w other)); [ reflexivity | ].
  destruct (Rlt_dec (mass (heap w self)) (mass (heap w other)));
    [ reflexivity | ].
  cbv zeta. rewrite bind_div_comm.
  destruct (div _ _) as [ nvx | e | ]; simpl; try reflexivity.
  rewrite bind_div_comm. reflexivity.
Qed.

Section Absorb.

Variables (winner loser : ref) (w : World).
Hypothesis distinct : winner <> loser.

Let bw : Body := heap w winner.
Let bl : Body := heap w loser.

Lemma absorb_spec :
  mass bl + (mass bw + mass bl) <> 0 ->
  exists w',
    absorb winner loser w = Ok w'
    /\ heap w' winner = merged_body bw bl
    /\ (forall r, r <> winner -> heap w' r = heap w r)
    /\ bodies w' = list_remove loser (bodies w)
    /\ paused w' = paused w.
Proof.
  intros Hden. unfold absorb. cbv zeta.
  assert (Hl : forall f w0, heap (modify winner f w0) loser = heap w0 loser).
  { intros f w0. apply heap_modify_other. congruence. }
  rewrite !heap_modify_same, !Hl. cbn [mass set_mass]. fold bw bl.
  rewrite (div_ok _ _ Hden). cbn [bind].
  rewrite !heap_modify_same, !Hl. cbn [mass set_mass set_vx]. fold bw bl.
  rewrite (div_ok _ _ Hden). cbn [bind].
  eexists. split; [ reflexivity | ].
  rewrite heap_remove_if_present, bodies_remove_if_present,
    paused_remove_if_present.
  repeat split.
  - rewrite !heap_modify_same, !Hl. reflexivity.
  - intros r Hr. rewrite !heap_modify_other by exact Hr. reflexivity.
Qed.

Lemma absorb_raises :
  mass bl + (mass bw + mass bl) = 0 ->
  absorb winner loser w = Raise ZeroDivisionError.
Proof.
  intros Hden. unfold absorb. cbv zeta.
  assert (Hl : forall f w0, heap (modify winner f w0) loser = heap w0 loser).
  { intros f w0. apply heap_modify_other. congruence. }
  rewrite !heap_modify_same, !Hl. cbn [mass set_mass]. fold bw bl.
  rewrite Hden, div_zero. reflexivity.
Qed.

Lemma absorb_inv (w' : World) :
  absorb winner loser w = Ok w' ->
  mass bl + (mass bw + mass bl) <> 0
  /\ heap w' winner = merged_body bw bl
  /\ (forall r, r <> winner -> heap w' r = heap w r)
  /\ bodies w' = list_remove loser (bodies w)
  /\ paused w' = paused w.
Proof.
  intros H.
  destruct (Req_dec_T (mass bl + (mass bw + mass bl)) 0) as [E | N].
  - rewrite (absorb_raises E) in H. discriminate.
  - split; [ exact N | ].
    destruct (absorb_spec N) as [w'' [E' Hspec]].
    rewrite E' in H. injection H as <-. exact Hspec.
Qed.

End Absorb.

Lemma merge_static_other (self other : ref) (w : World) :
  is_static (heap w other) = true -> merge self other w = Ok w.
Proof. intros H. unfold merge. rewrite H. reflexivity. Qed.

Lemma merge_absorb (self other : ref) (w : World) :
  is_static (heap w other) = false ->
  merge self other w = absorb (winner_of self other w) (loser_of self other w) w.
Proof.
  intros H. rewrite merge_unfold, H. unfold winner_of, loser_of.
  destruct (Rlt_dec (mass (heap w self)) (mass (heap w other))); reflexivity.
Qed.

Lemma winner_loser_distinct (self other : ref) (w : World) :
  self <> other -> winner_of self other w <> loser_of self other w.
Proof.
  intros H. unfold winner_of, loser_of.
  destruct (Rlt_dec (mass (heap w self)) (mass (heap w other))); congruence.
Qed.

Lemma winner_loser_cases (self other : ref) (w : World) :
  (winner_of self other w = other /\ loser_of self other w = self
   /\ mass (heap w self) < mass (heap w other))
  \/ (winner_of self other w = self /\ loser_of self other w = other
      /\ mass (heap w other) <= mass (heap w self)).
Proof.
  unfold winner_of, loser_of.
  destruct (Rlt_dec (mass (heap w self)) (mass (heap w other))) as [L | L].
  - left. repeat split. exact L.
  - right. repeat split. lra.
Qed.

(** With positive masses a merge never divides by zero. *)
Lemma merge_returns (self other : ref) (w : World) :
  self <> other ->
  0 < mass (heap w self) -> 0 < mass (heap w other) ->
  exists w', merge self other w = Ok w'.
Proof.
  intros Hne Hs Ho.
  destruct (is_static (heap w other)) eqn:St.
  - exists w. apply merge_static_other. exact St.
  - rewrite (merge_absorb _ _ _ St).
    destruct (absorb_spec (winner_of self other w) (loser_of self other w) w)
      as [w' [E _]].
    + apply winner_loser_distinct. exact Hne.
    + destruct (winner_loser_cases self other w) as [[-> [-> _]] | [-> [-> _]]];
        lra.
    + exists w'. exact E.
Qed.

(** C6.  Whenever [merge] resolves a collision (the other body is not
    static), the surviving body's radius becomes the root of the sum of the
    squares of the two radii, which is at least either of them; and with
    positive masses the merge does return. *)
Theorem merge_radius_law (self other : ref) (w : World) :
  self <> other ->
  is_static (heap w other) = false ->
  (forall w', merge self other w = Ok w' ->
     let win := winner_of self other w in
     let los := loser_of self other w in
     radius (heap w' win)
       = sqrt (radius (heap w win) ^ 2 + radius (heap w los) ^ 2)
     /\ radius (heap w win) <= radius (heap w' win)
     /\ radius (heap w los) <= radius (heap w' win))
  /\ (0 < mass (heap w self) -> 0 < mass (heap w other) ->
      exists w', merge self other w = Ok w').
Proof.
  intros Hne St. split.
  - intros w' E win los. rewrite (merge_absorb _ _ _ St) in E.
    apply absorb_inv in E; [ | apply winner_loser_distinct; exact Hne ].
    destruct E as [_ [Hw _]]. fold win los in Hw. rewrite Hw.
    cbn [radius merged_body].
    repeat split; [ apply sqrt_sum_sq_ge_l | apply sqrt_sum_sq_ge_r ].
  - intros Hs Ho. apply merge_returns; assumption.
Qed.

Lemma merge_radius_law_witness :
  exists w',
    merge 0 1 momentum_pair = Ok w'
    /\ radius (heap w' (winner_of 0 1 momentum_pair))
       = sqrt (radius (heap momentum_pair (winner_of 0 1 momentum_pair)) ^ 2
               + radius (heap momentum_pair (loser_of 0 1 momentum_pair)) ^ 2).
Proof.
  destruct (merge_radius_law 0 1 momentum_pair) as [Hlaw Hret].
  - discriminate.
  - reflexivity.
  - destruct Hret as [w' E].
    + simpl. lra.
    + simpl. lra.
    + exists w'. split; [ exact E | ]. apply (Hlaw w' E).
Defined.

Lemma momentum_pair_winner :
  winner_of 0 1 momentum_pair = 0%nat /\ loser_of 0 1 momentum_pair = 1%nat.
Proof.
  unfold winner_of, loser_of.
  destruct (Rlt_dec (mass (heap momentum_pair 0)) (mass (heap momentum_pair 1)))
    as [L | _].
  - simpl in L. lra.
  - split; reflexivity.
Qed.

(** C1 (the code departs from the claim).  Merging the body of mass 3 and
    velocity (2, 0) with the body of mass 1 and velocity (0, 4): [merge]
    has already added the absorbed mass to the survivor when it averages the
    velocities, so the survivor's weight is 4, not 3, and the result is
    (8/5, 4/5) instead of the momentum-consistent (3/2, 1). *)
Theorem merge_velocity_uses_updated_mass :
  exists w',
    merge 0 1 momentum_pair = Ok w'
    /\ vx (heap w' 0%nat) = 8 / 5
    /\ vy (heap w' 0%nat) = 4 / 5
    /\ vx (heap w' 0%nat) <> 3 / 2
    /\ vy (heap w' 0%nat) <> 1.
Proof.
  destruct momentum_pair_winner as [Hw Hl].
  destruct (absorb_spec 0 1 momentum_pair) as [w' [E [Hb _]]].
  - discriminate.
  - simpl. lra.
  - exists w'. rewrite merge_absorb by reflexivity. rewrite Hw, Hl.
    split; [ exact E | ]. rewrite Hb. simpl.
    repeat split; lra.
Qed.

(** ** One round of the scan *)

Lemma scan_body_self (self : ref) (f : R * R) (w : World) :
  scan_body self self f w = Ok (f, w).
Proof. unfold scan_body. rewrite Nat.eqb_refl. reflexivity. Qed.

Lemma scan_body_coincident (self other : ref) (f : R * R) (w : World) :
  distance_to self other w = 0 -> scan_body self other f w = Ok (f, w).
Proof.
  intros Hd. unfold scan_body. destruct (Nat.eqb other self); [ reflexivity | ].
  cbv zeta. fold (distance_to self other w).
  destruct (Req_dec_T (distance_to self other w) 0) as [_ | N];
    [ reflexivity | contradiction ].
Qed.

Lemma scan_body_collide (self other : ref) (f : R * R) (w : World) :
  colliding self other w ->
  scan_body self other f w = (w' <- merge self other w ;; Ok (f, w')).
Proof.
  intros [Hne [Hpos Hlt]]. unfold scan_body.
  apply Nat.eqb_neq in Hne. rewrite Hne. cbv zeta.
  fold (distance_to self other w).
  destruct (Req_dec_T (distance_to self other w) 0) as [E | _]; [ lra | ].
  destruct (Rlt_dec (distance_to self other w)
              (radius (heap w self) + radius (heap w other))) as [_ | N];
    [ reflexivity | contradiction ].
Qed.

Lemma scan_body_gravity (self other : ref) (f : R * R) (w : World) :
  other <> self ->
  radius (heap w self) + radius (heap w other) <= distance_to self other w ->
  distance_to self other w <> 0 ->
  scan_body self other f w =
  let force := G * mass (heap w self) * mass (heap w other)
               / distance_to self other w ^ 2 in
  let angle := atan2 (y (heap w other) - y (heap w self))
                     (x (heap w other) - x (heap w self)) in
  Ok ((fst f + cos angle * force, snd f + sin angle * force), w).
Proof.
  intros Hne Hfar Hnz. unfold scan_body.
  apply Nat.eqb_neq in Hne. rewrite Hne. cbv zeta.
  fold (distance_to self other w).
  destruct (Req_dec_T (distance_to self other w) 0) as [E | _];
    [ contradiction | ].
  destruct (Rlt_dec (distance_to self other w)
              (radius (heap w self) + radius (heap w other))) as [L | _];
    [ lra | ].
  rewrite div_ok; [ reflexivity | ].
  apply pow_nonzero. exact Hnz.
Qed.

Lemma distance_to_nonneg (self other : ref) (w : World) :
  0 <= distance_to self other w.
Proof. apply hypot_nonneg. Qed.

(** Outside the collision band a round leaves the world as it is. *)
Lemma scan_body_no_collision (self other : ref) (f : R * R) (w : World) :
  ~ colliding self other w ->
  exists f', scan_body self other f w = Ok (f', w).
Proof.
  intros Hnc. destruct (Nat.eq_dec other self) as [-> | Hne].
  - exists f. apply scan_body_self.
  - destruct (Req_dec_T (distance_to self other w) 0) as [E | N].
    + exists f. apply scan_body_coincident. exact E.
    + destruct (Rlt_dec (distance_to self other w)
                  (radius (heap w self) + radius (heap w other))) as [L | L].
      * exfalso. apply Hnc. split; [ exact Hne | ].
        pose proof (distance_to_nonneg self other w). lra.
      * eexists. rewrite scan_body_gravity; [ reflexivity | exact Hne | lra | exact N ].
Qed.

(** C8.  A pair whose centers coincide is skipped: the round returns the
    accumulated force and the world unchanged, and raises nothing.  A round
    calls [merge] exactly in the band [0 < distance < radius + radius]
    (for another body than the subject); outside it the world is left as it
    is and nothing is raised. *)
Theorem coincident_centers_skipped (self other : ref) (f : R * R) (w : World) :
  (x (heap w other) = x (heap w self) ->
   y (heap w other) = y (heap w self) ->
   scan_body self other f w = Ok (f, w))
  /\ (colliding self other w ->
      scan_body self other f w = (w' <- merge self other w ;; Ok (f, w')))
  /\ (~ colliding self other w ->
      exists f', scan_body self other f w = Ok (f', w)).
Proof.
  split; [ | split ].
  - intros Hx Hy. apply scan_body_coincident. unfold distance_to.
    apply hypot_zero. split; lra.
  - apply scan_body_collide.
  - apply scan_body_no_collision.
Qed.

(** C5 (as the code has it).  When the other body of a colliding pair is
    static, whatever the masses, the collision is detected and left
    unresolved: [merge] returns at once, so the round changes no body,
    removes nothing and adds no force for the pair. *)
Theorem collision_with_static_unresolved
    (self other : ref) (f : R * R) (w : World) :
  colliding self other w ->
  is_static (heap w other) = true ->
  merge self other w = Ok w /\ scan_body self other f w = Ok (f, w).
Proof.
  intros Hc St. pose proof (merge_static_other self other w St) as Hm.
  split; [ exact Hm | ].
  rewrite (scan_body_collide _ _ _ _ Hc), Hm. reflexivity.
Qed.

Ltac on_axis :=
  unfold distance_to; simpl;
  match goal with
  | |- context [hypot ?a ?b] =>
      replace b with 0 by lra; rewrite (hypot_axis a)
  end;
  first [ rewrite Rabs_left by lra | rewrite Rabs_right by lra ].

Lemma sun_and_planet_colliding : colliding 1 0 sun_and_planet.
Proof.
  split; [ discriminate | ]. on_axis. simpl. lra.
Qed.

Lemma collision_with_static_unresolved_witness :
  merge 1 0 sun_and_planet = Ok sun_and_planet
  /\ scan_body 1 0 (0, 0) sun_and_planet = Ok ((0, 0), sun_and_planet).
Proof.
  apply (collision_with_static_unresolved 1 0 (0, 0) sun_and_planet).
  - split; [ discriminate | ]. on_axis. simpl. lra.
  - reflexivity.
Defined.

(** C5 (as the spec states it) fails: the planet overlaps the static sun,
    whose mass is strictly higher, yet the round neither lets the sun absorb
    the planet nor removes the planet. *)
Lemma static_heavier_does_not_absorb :
  colliding 1 0 sun_and_planet
  /\ is_static (heap sun_and_planet 0) = true
  /\ is_static (heap sun_and_planet 1) = false
  /\ mass (heap sun_and_planet 1) < mass (heap sun_and_planet 0)
  /\ ~ (exists f w',
          scan_body 1 0 (0, 0) sun_and_planet = Ok (f, w')
          /\ mass (heap w' 0%nat)
             = mass (heap sun_and_planet 0) + mass (heap sun_and_planet 1)
          /\ ~ In 1%nat (bodies w')).
Proof.
  split; [ exact sun_and_planet_colliding | ].
  split; [ reflexivity | ]. split; [ reflexivity | ].
  split; [ simpl; lra | ].
  intros [f [w' [E [Hm _]]]].
  rewrite (scan_body_collide _ _ _ _ sun_and_planet_colliding) in E.
  rewrite merge_static_other in E by reflexivity.
  simpl in E. injection E as _ <-. simpl in Hm. lra.
Qed.

Lemma coincident_centers_skipped_witness :
  scan_body 0 1 (0, 0) coincident_pair = Ok ((0, 0), coincident_pair).
Proof.
  apply (coincident_centers_skipped 0 1 (0, 0) coincident_pair); reflexivity.
Defined.

(** ** Static bodies *)

Lemma static_frame_refl (w : World) : static_frame w w.
Proof. split; [ reflexivity | ]. intros s _. split; [ reflexivity | tauto ]. Qed.

Lemma static_frame_trans (w1 w2 w3 : World) :
  static_frame w1 w2 -> static_frame w2 w3 -> static_frame w1 w3.
Proof.
  intros [F12 S12] [F23 S23]. split.
  - intros r. rewrite F23. apply F12.
  - intros s Hs. destruct (S12 s Hs) as [E12 I12].
    assert (Hs2 : is_static (heap w2 s) = true) by (rewrite F12; exact Hs).
    destruct (S23 s Hs2) as [E23 I23]. split.
    + rewrite E23. exact E12.
    + intros H. apply I23, I12, H.
Qed.

Lemma absorb_static_frame (winner loser : ref) (w w' : World) :
  winner <> loser ->
  is_static (heap w winner) = false ->
  is_static (heap w loser) = false ->
  absorb winner loser w = Ok w' -> static_frame w w'.
Proof.
  intros Hne Hw Hl E. apply absorb_inv in E; [ | exact Hne ].
  destruct E as [_ [Hb [Hframe [Hbodies _]]]]. split.
  - intros r. destruct (Nat.eq_dec r winner) as [-> | Hr].
    + rewrite Hb. reflexivity.
    + rewrite Hframe by exact Hr. reflexivity.
  - intros s Hs.
    assert (s <> winner) by congruence. assert (s <> loser) by congruence.
    split.
    + apply Hframe. assumption.
    + rewrite Hbodies. apply list_remove_keeps. assumption.
Qed.

Lemma merge_static_frame (self other : ref) (w w' : World) :
  self <> other ->
  is_static (heap w self) = false ->
  merge self other w = Ok w' -> static_frame w w'.
Proof.
  intros Hne Hs E. destruct (is_static (heap w other)) eqn:St.
  - rewrite merge_static_other in E by exact St. injection E as <-.
    apply static_frame_refl.
  - rewrite merge_absorb in E by exact St.
    apply absorb_static_frame in E; [ exact E | | | ].
    + apply winner_loser_distinct. exact Hne.
    + destruct (winner_loser_cases self other w) as [[-> _] | [-> _]]; assumption.
    + destruct (winner_loser_cases self other w) as [[_ [-> _]] | [_ [-> _]]];
        assumption.
Qed.

Lemma scan_body_static_frame (self other : ref) (f f' : R * R) (w w' : World) :
  is_static (heap w self) = false ->
  scan_body self other f w = Ok (f', w') -> static_frame w w'.
Proof.
  intros Hs E. unfold scan_body in E.
  destruct (Nat.eqb other self) eqn:Eq.
  - injection E as _ <-. apply static_frame_refl.
  - apply Nat.eqb_neq in Eq. cbv zeta in E.
    destruct (Req_dec_T _ 0) as [_ | _].
    + injection E as _ <-. apply static_frame_refl.
    + destruct (Rlt_dec _ _) as [_ | _].
      * destruct (merge self other w) as [w1 | e | ] eqn:Em; try discriminate.
        simpl in E. injection E as _ <-.
        apply (merge_static_frame self other); [ congruence | exact Hs | exact Em ].
      * destruct (div _ _) as [q | e | ]; try discriminate.
        simpl in E. injection E as _ <-. apply static_frame_refl.
Qed.

Lemma scan_static_frame (fuel : nat) (self : ref) :
  forall (i : nat) (f f' : R * R) (w w' : World),
    is_static (heap w self) = false ->
    scan fuel self i f w = Ok (f', w') -> static_frame w w'.
Proof.
  induction fuel as [ | fuel IH ]; intros i f f' w w' Hs E; simpl in E.
  - discriminate.
  - destruct (nth_error (bodies w) i) as [other | ].
    + destruct (scan_body self other f w) as [[f1 w1] | e | ] eqn:Eb;
        try discriminate.
      simpl in E.
      pose proof (scan_body_static_frame _ _ _ _ _ _ Hs Eb) as F1.
      apply static_frame_trans with w1; [ exact F1 | ].
      apply (IH _ _ _ _ _) with (2 := E).
      destruct F1 as [Fl _]. rewrite Fl. exact Hs.
    + injection E as _ <-. apply static_frame_refl.
Qed.

Lemma modify_static_frame (self : ref) (g : Body -> Body) (w : World) :
  is_static (heap w self) = false ->
  is_static (g (heap w self)) = false ->
  static_frame w (modify self g w).
Proof.
  intros Hs Hg. split.
  - intros r. destruct (Nat.eq_dec r self) as [-> | Hr].
    + rewrite heap_modify_same, Hg, Hs. reflexivity.
    + rewrite heap_modify_other by exact Hr. reflexivity.
  - intros s St. split; [ | tauto ].
    apply heap_modify_other. congruence.
Qed.

(** ** The statements after the loop *)

Lemma integrate_spec (self : ref) (f : R * R) (w : World) :
  mass (heap w self) <> 0 ->
  exists w',
    integrate self f w = Ok w'
    /\ heap w' self = integrated_body f (heap w self)
    /\ (forall r, r <> self -> heap w' r = heap w r)
    /\ bodies w' = bodies w
    /\ paused w' = paused w.
Proof.
  intros Hm. unfold integrate.
  rewrite (div_ok _ _ Hm). cbn [bind].
  rewrite !heap_modify_same. cbn [mass set_vx].
  rewrite (div_ok _ _ Hm). cbn [bind].
  eexists. split; [ reflexivity | ].
  rewrite !heap_modify_same.
  cbn [x y vx vy trail set_vx set_vy set_x set_y set_trail].
  set (tr := trail (heap w self) ++ _).
  destruct (Nat.ltb 150 (length tr)) eqn:El.
  - repeat split.
    + rewrite !heap_modify_same. unfold integrated_body. cbv zeta.
      fold tr. rewrite El. reflexivity.
    + intros r Hr. rewrite !heap_modify_other by exact Hr. reflexivity.
  - repeat split.
    + rewrite !heap_modify_same. unfold integrated_body. cbv zeta.
      fold tr. rewrite El. reflexivity.
    + intros r Hr. rewrite !heap_modify_other by exact Hr. reflexivity.
Qed.

Lemma integrate_raises (self : ref) (f : R * R) (w : World) :
  mass (heap w self) = 0 -> integrate self f w = Raise ZeroDivisionError.
Proof. intros Hm. unfold integrate. rewrite Hm, div_zero. reflexivity. Qed.

Lemma integrate_inv (self : ref) (f : R * R) (w w' : World) :
  integrate self f w = Ok w' ->
  mass (heap w self) <> 0
  /\ heap w' self = integrated_body f (heap w self)
  /\ (forall r, r <> self -> heap w' r = heap w r)
  /\ bodies w' = bodies w
  /\ paused w' = paused w.
Proof.
  intros H. destruct (Req_dec_T (mass (heap w self)) 0) as [E | N].
  - rewrite (integrate_raises _ _ _ E) in H. discriminate.
  - split; [ exact N | ].
    destruct (integrate_spec self f w N) as [w'' [E' Hspec]].
    rewrite E' in H. injection H as <-. exact Hspec.
Qed.

Lemma integrate_static_frame (self : ref) (f : R * R) (w w' : World) :
  is_static (heap w self) = false ->
  integrate self f w = Ok w' -> static_frame w w'.
Proof.
  intros Hs E. apply integrate_inv in E.
  destruct E as [_ [Hb [Hframe [Hbodies _]]]]. split.
  - intros r. destruct (Nat.eq_dec r self) as [-> | Hr].
    + rewrite Hb. reflexivity.
    + rewrite Hframe by exact Hr. reflexivity.
  - intros s St. split.
    + apply Hframe. congruence.
    + rewrite Hbodies. tauto.
Qed.

Lemma update_static_frame (self : ref) (w w' : World) :
  update self w = Ok w' -> static_frame w w'.
Proof.
  intros E. unfold update in E.
  destruct (is_static (heap w self)) eqn:Hs; cbn [orb] in E.
  - injection E as <-. apply static_frame_refl.
  - destruct (paused w).
    + injection E as <-. apply static_frame_refl.
    + destruct (scan _ self 0 (0, 0) w) as [[f1 w1] | e | ] eqn:Es;
        try discriminate.
      cbn [bind fst snd] in E.
      pose proof (scan_static_frame _ _ _ _ _ _ _ Hs Es) as F1.
      apply static_frame_trans with w1; [ exact F1 | ].
      apply (integrate_static_frame self f1); [ | exact E ].
      destruct F1 as [Fl _]. rewrite Fl. exact Hs.
Qed.

Lemma update_all_static_frame (snapshot : list ref) :
  forall w w', update_all snapshot w = Ok w' -> static_frame w w'.
Proof.
  induction snapshot as [ | body rest IH ]; intros w w' E; simpl in E.
  - injection E as <-. apply static_frame_refl.
  - destruct (update body w) as [w1 | e | ] eqn:Eu; try discriminate.
    simpl in E. apply static_frame_trans with w1.
    + apply (update_static_frame body). exact Eu.
    + apply IH. exact E.
Qed.

Lemma ticks_static_frame (n : nat) :
  forall w w', ticks n w = Ok w' -> static_frame w w'.
Proof.
  induction n as [ | n IH ]; intros w w' E; simpl in E.
  - injection E as <-. apply static_frame_refl.
  - destruct (tick w) as [w1 | e | ] eqn:Et; try discriminate.
    simpl in E. apply static_frame_trans with w1.
    + apply (update_all_static_frame (bodies w)). exact Et.
    + apply IH. exact E.
Qed.

(** C3.  A static body is immune: across any number of ticks it keeps
    every attribute (its mass and its static flag among them) and stays in
    the live collection; and in any merge a non-static subject starts (the
    only merges [update] makes) a static body is not the absorbed side: it
    is left as it is and stays in the collection. *)
Theorem static_immunity (s : ref) (w : World) :
  is_static (heap w s) = true ->
  (forall n w', ticks n w = Ok w' ->
     heap w' s = heap w s
     /\ mass (heap w' s) = mass (heap w s)
     /\ is_static (heap w' s) = true
     /\ (In s (bodies w) -> In s (bodies w')))
  /\ (forall self other w',
        self <> other ->
        is_static (heap w self) = false ->
        merge self other w = Ok w' ->
        heap w' s = heap w s /\ (In s (bodies w) -> In s (bodies w'))).
Proof.
  intros Hs. split.
  - intros n w' E. apply ticks_static_frame in E.
    destruct E as [_ Hframe]. destruct (Hframe s Hs) as [Eq Hin].
    rewrite Eq. repeat split; assumption.
  - intros self other w' Hne Hself E.
    apply merge_static_frame in E; [ | exact Hne | exact Hself ].
    destruct E as [_ Hframe]. apply Hframe. exact Hs.
Qed.

(** ** The scan always ends *)

Lemma merge_bodies (self other : ref) (w w' : World) :
  self <> other ->
  merge self other w = Ok w' ->
  paused w' = paused w
  /\ (bodies w' = bodies w
      \/ bodies w' = list_remove (loser_of self other w) (bodies w)).
Proof.
  intros Hne E. destruct (is_static (heap w other)) eqn:St.
  - rewrite merge_static_other in E by exact St. injection E as <-.
    split; [ reflexivity | left; reflexivity ].
  - rewrite merge_absorb in E by exact St.
    apply absorb_inv in E; [ | apply winner_loser_distinct; exact Hne ].
    destruct E as [_ [_ [_ [Hb Hp]]]]. split; [ exact Hp | right; exact Hb ].
Qed.

Lemma merge_shrinks (self other : ref) (w w' : World) :
  self <> other ->
  merge self other w = Ok w' ->
  (length (bodies w') <= length (bodies w))%nat
  /\ (forall r, In r (bodies w') -> In r (bodies w)).
Proof.
  intros Hne E. destruct (merge_bodies _ _ _ _ Hne E) as [_ [-> | ->]].
  - split; [ lia | tauto ].
  - split; [ apply list_remove_length | intros r; apply list_remove_incl ].
Qed.

Lemma scan_body_shrinks (self other : ref) (f f' : R * R) (w w' : World) :
  scan_body self other f w = Ok (f', w') ->
  paused w' = paused w
  /\ (length (bodies w') <= length (bodies w))%nat
  /\ (forall r, In r (bodies w') -> In r (bodies w)).
Proof.
  intros E. unfold scan_body in E.
  destruct (Nat.eqb other self) eqn:Eq.
  - injection E as _ <-. repeat split; [ lia | tauto ].
  - apply Nat.eqb_neq in Eq. cbv zeta in E.
    destruct (Req_dec_T _ 0) as [_ | _].
    + injection E as _ <-. repeat split; [ lia | tauto ].
    + destruct (Rlt_dec _ _) as [_ | _].
      * destruct (merge self other w) as [w1 | e | ] eqn:Em; try discriminate.
        simpl in E. injection E as _ <-.
        assert (Hne : self <> other) by congruence.
        split; [ apply (merge_bodies _ _ _ _ Hne Em) | ].
        apply (merge_shrinks _ _ _ _ Hne Em).
      * destruct (div _ _) as [q | e | ]; try discriminate.
        simpl in E. injection E as _ <-. repeat split; [ lia | tauto ].
Qed.







(** ** Positive masses and radii *)

Lemma merged_body_positive (bw bl : Body) :
  positive_body bw -> positive_body bl -> positive_body (merged_body bw bl).
Proof.
  intros [Hm Hr] [Hm' Hr']. split; cbn [mass radius merged_body].
  - lra.
  - apply sqrt_sum_sq_pos. exact Hr.
Qed.

Lemma integrated_body_positive (f : R * R) (b : Body) :
  positive_body b -> positive_body (integrated_body f b).
Proof. intros H. exact H. Qed.

Section Positive.

Variable dom : ref -> Prop.
Variable self : ref.
Hypothesis dom_self : dom self.

Lemma absorb_positive (winner loser : ref) (w : World) :
  winner <> loser -> dom winner -> dom loser -> positive_on dom w ->
  exists w', absorb winner loser w = Ok w' /\ positive_on dom w'.
Proof.
  intros Hne Sw Sl Hpos.
  destruct (Hpos winner Sw) as [Hmw Hrw]. destruct (Hpos loser Sl) as [Hml Hrl].
  destruct (absorb_spec winner loser w Hne) as [w' [E [Hb [Hframe _]]]];
    [ lra | ].
  exists w'. split; [ exact E | ].
  intros r Sr. destruct (Nat.eq_dec r winner) as [-> | Hr].
  - rewrite Hb. apply merged_body_positive; apply Hpos; assumption.
  - rewrite Hframe by exact Hr. apply Hpos. exact Sr.
Qed.

Lemma merge_positive (other : ref) (w : World) :
  self <> other -> dom other -> positive_on dom w ->
  exists w', merge self other w = Ok w' /\ positive_on dom w'.
Proof.
  intros Hne So Hpos. destruct (is_static (heap w other)) eqn:St.
  - exists w. split; [ apply merge_static_other; exact St | exact Hpos ].
  - rewrite merge_absorb by exact St. apply absorb_positive.
    + apply winner_loser_distinct. exact Hne.
    + destruct (winner_loser_cases self other w) as [[-> _] | [-> _]]; assumption.
    + destruct (winner_loser_cases self other w) as [[_ [-> _]] | [_ [-> _]]];
        assumption.
    + exact Hpos.
Qed.

Lemma scan_body_positive (other : ref) (f : R * R) (w : World) :
  dom other -> positive_on dom w ->
  exists f' w', scan_body self other f w = Ok (f', w') /\ positive_on dom w'.
Proof.
  intros So Hpos. unfold scan_body.
  destruct (Nat.eqb other self) eqn:Eq; [ exists f, w; tauto | ].
  apply Nat.eqb_neq in Eq. cbv zeta.
  destruct (Req_dec_T _ 0) as [_ | Hnz]; [ exists f, w; tauto | ].
  destruct (Rlt_dec _ _) as [_ | _].
  - destruct (merge_positive other w) as [w' [E Hpos']];
      [ congruence | exact So | exact Hpos | ].
    rewrite E. exists f, w'. split; [ reflexivity | exact Hpos' ].
  - rewrite div_ok by (apply pow_nonzero; exact Hnz).
    eexists. exists w. split; [ reflexivity | exact Hpos ].
Qed.

Lemma scan_positive (fuel : nat) :
  forall (i : nat) (f : R * R) (w : World),
    (forall r, In r (bodies w) -> dom r) ->
    positive_on dom w ->
    (length (bodies w) - i < fuel)%nat ->
    exists f' w',
      scan fuel self i f w = Ok (f', w')
      /\ positive_on dom w'
      /\ paused w' = paused w
      /\ (forall r, In r (bodies w') -> In r (bodies w)).
Proof.
  induction fuel as [ | fuel IH ]; intros i f w Hlive Hpos Hfuel; [ lia | ].
  simpl. destruct (nth_error (bodies w) i) as [other | ] eqn:En.
  - assert (Hi : (i < length (bodies w))%nat).
    { apply nth_error_Some. congruence. }
    assert (So : dom other). { apply Hlive. eapply nth_error_In. exact En. }
    destruct (scan_body_positive other f w So Hpos) as [f1 [w1 [Eb Hpos1]]].
    rewrite Eb. cbn [bind fst snd].
    destruct (scan_body_shrinks _ _ _ _ _ _ Eb) as [Hp1 [Hlen Hincl]].
    destruct (IH (Datatypes.S i) f1 w1) as [f' [w' [E [Hpos' [Hp' Hincl']]]]].
    + intros r Hr. apply Hlive, Hincl, Hr.
    + exact Hpos1.
    + lia.
    + exists f', w'. split; [ exact E | ]. split; [ exact Hpos' | ].
      split; [ congruence | ].
      intros r Hr. apply Hincl, Hincl', Hr.
  - exists f, w. split; [ reflexivity | ]. split; [ exact Hpos | ].
    split; [ reflexivity | tauto ].
Qed.

Lemma update_positive (w : World) :
  (forall r, In r (bodies w) -> dom r) ->
  positive_on dom w ->
  exists w',
    update self w = Ok w'
    /\ positive_on dom w'
    /\ paused w' = paused w
    /\ (forall r, In r (bodies w') -> In r (bodies w)).
Proof.
  intros Hlive Hpos. unfold update.
  destruct (is_static (heap w self) || paused w).
  - exists w. split; [ reflexivity | ]. split; [ exact Hpos | ].
    split; [ reflexivity | tauto ].
  - destruct (scan_positive (Datatypes.S (length (bodies w))) 0 (0, 0) w)
      as [f1 [w1 [Es [Hpos1 [Hp1 Hincl1]]]]];
      [ exact Hlive | exact Hpos | lia | ].
    rewrite Es. cbn [bind fst snd].
    destruct (Hpos1 self dom_self) as [Hm Hr].
    destruct (integrate_spec self f1 w1) as [w' [E [Hb [Hframe [Hbodies Hp]]]]];
      [ lra | ].
    exists w'. split; [ exact E | ]. split; [ | split ].
    + intros r Sr. destruct (Nat.eq_dec r self) as [-> | Hne].
      * rewrite Hb. apply integrated_body_positive. apply Hpos1. exact dom_self.
      * rewrite Hframe by exact Hne. apply Hpos1. exact Sr.
    + congruence.
    + rewrite Hbodies. exact Hincl1.
Qed.

End Positive.

Lemma update_all_positive (dom : ref -> Prop) (snapshot : list ref) :
  forall w,
    (forall r, In r snapshot -> dom r) ->
    (forall r, In r (bodies w) -> dom r) ->
    positive_on dom w ->
    exists w',
      update_all snapshot w = Ok w'
      /\ positive_on dom w'
      /\ paused w' = paused w
      /\ (forall r, In r (bodies w') -> In r (bodies w)).
Proof.
  induction snapshot as [ | body rest IH ]; intros w Hsnap Hlive Hpos; simpl.
  - exists w. split; [ reflexivity | ]. split; [ exact Hpos | ].
    split; [ reflexivity | tauto ].
  - destruct (update_positive dom body (Hsnap body (or_introl eq_refl)) w Hlive Hpos)
      as [w1 [Eu [Hpos1 [Hp1 Hincl1]]]].
    rewrite Eu. cbn [bind].
    destruct (IH w1) as [w' [E [Hpos' [Hp' Hincl']]]].
    + intros r Hr. apply Hsnap. right. exact Hr.
    + intros r Hr. apply Hlive, Hincl1, Hr.
    + exact Hpos1.
    + exists w'. split; [ exact E | ]. split; [ exact Hpos' | ].
      split; [ congruence | ].
      intros r Hr. apply Hincl1, Hincl', Hr.
Qed.

(** With positive masses and radii among the live bodies a tick returns. *)
Lemma tick_positive (w : World) :
  positive_on (fun r => In r (bodies w)) w ->
  exists w',
    tick w = Ok w'
    /\ positive_on (fun r => In r (bodies w)) w'
    /\ (forall r, In r (bodies w') -> In r (bodies w)).
Proof.
  intros Hpos.
  destruct (update_all_positive (fun r => In r (bodies w)) (bodies w) w)
    as [w' [E [Hpos' [_ Hincl]]]]; try tauto.
  exists w'. split; [ exact E | ]. split; [ exact Hpos' | exact Hincl ].
Qed.

(** ** Evaluating the program on given worlds *)

Lemma absorb_eval (winner loser : ref) (w : World) :
  winner <> loser ->
  mass (heap w loser) + (mass (heap w winner) + mass (heap w loser)) <> 0 ->
  absorb winner loser w = Ok (absorb_world winner loser w).
Proof.
  intros Hne Hden. unfold absorb, absorb_world. cbv zeta.
  assert (Hl : forall g w0, heap (modify winner g w0) loser = heap w0 loser).
  { intros g w0. apply heap_modify_other. congruence. }
  rewrite div_ok.
  2:{ rewrite !heap_modify_same, !Hl. exact Hden. }
  cbn [bind]. rewrite div_ok.
  2:{ rewrite !heap_modify_same, !Hl. exact Hden. }
  reflexivity.
Qed.

Lemma integrate_eval (self : ref) (f : R * R) (w : World) :
  mass (heap w self) <> 0 ->
  integrate self f w = Ok (integrate_world self f w).
Proof.
  intros Hm. unfold integrate, integrate_world. cbv zeta.
  rewrite div_ok by exact Hm. cbn [bind].
  rewrite div_ok by (rewrite heap_modify_same; exact Hm).
  reflexivity.
Qed.

Lemma scan_next (fuel : nat) (self other : ref) (i : nat) (f : R * R) (w : World) :
  nth_error (bodies w) i = Some other ->
  scan (S fuel) self i f w =
  (r <- scan_body self other f w ;; scan fuel self (S i) (fst r) (snd r)).
Proof. intros H. simpl. rewrite H. reflexivity. Qed.

Lemma scan_end (fuel : nat) (self : ref) (i : nat) (f : R * R) (w : World) :
  nth_error (bodies w) i = None ->
  scan (S fuel) self i f w = Ok (f, w).
Proof. intros H. simpl. rewrite H. reflexivity. Qed.

Lemma update_running (self : ref) (w : World) :
  is_static (heap w self) = false -> paused w = false ->
  update self w =
  (r <- scan (S (length (bodies w))) self 0 (0, 0) w ;;
   integrate self (fst r) (snd r)).
Proof. intros Hs Hp. unfold update. rewrite Hs, Hp. reflexivity. Qed.

Lemma update_static (self : ref) (w : World) :
  is_static (heap w self) = true -> update self w = Ok w.
Proof. intros Hs. unfold update. rewrite Hs. reflexivity. Qed.

Lemma merge_self_lighter (self other : ref) (w : World) :
  is_static (heap w other) = false ->
  mass (heap w self) < mass (heap w other) ->
  merge self other w = absorb other self w.
Proof.
  intros St Hlt. rewrite merge_unfold, St.
  destruct (Rlt_dec _ _) as [_ | N]; [ reflexivity | contradiction ].
Qed.

Lemma merge_self_not_lighter (self other : ref) (w : World) :
  is_static (heap w other) = false ->
  mass (heap w other) <= mass (heap w self) ->
  merge self other w = absorb self other w.
Proof.
  intros St Hle. rewrite merge_unfold, St.
  destruct (Rlt_dec _ _) as [L | _]; [ lra | reflexivity ].
Qed.

Ltac sqrt_atoms :=
  repeat match goal with
         | |- context [sqrt ?a] =>
             lazymatch goal with
             | _ : 0 <= sqrt a |- _ => fail
             | _ => pose proof (sqrt_pos a)
             end
         end.

(** Closes [colliding self other w] for bodies on the horizontal axis. *)
Ltac collides := split; [ discriminate | on_axis; simpl; sqrt_atoms; lra ].

Ltac arith := simpl; lra.

(** *** The sun and two asteroids *)

Lemma update_first_asteroid :
  update 1 sun_and_two_asteroids = Ok two_asteroids_mid.
Proof.
  rewrite update_running by reflexivity.
  change (length (bodies sun_and_two_asteroids)) with 3%nat.
  rewrite (scan_next _ _ 0%nat) by reflexivity.
  rewrite scan_body_collide by collides.
  rewrite merge_static_other by reflexivity. cbn [bind fst snd].
  rewrite (scan_next _ _ 1%nat) by reflexivity.
  rewrite scan_body_self. cbn [bind fst snd].
  rewrite (scan_next _ _ 2%nat) by reflexivity.
  rewrite scan_body_collide by collides.
  rewrite merge_self_not_lighter; [ | reflexivity | arith ].
  rewrite absorb_eval; [ | discriminate | arith ]. cbn [bind fst snd].
  rewrite scan_end by reflexivity. cbn [bind fst snd].
  rewrite integrate_eval by arith. unfold two_asteroids_mid. reflexivity.
Qed.

Lemma update_second_asteroid :
  update 2 two_asteroids_mid = Ok two_asteroids_end.
Proof.
  rewrite update_running by reflexivity.
  change (length (bodies two_asteroids_mid)) with 2%nat.
  rewrite (scan_next _ _ 0%nat) by reflexivity.
  rewrite scan_body_collide by collides.
  rewrite merge_static_other by reflexivity. cbn [bind fst snd].
  rewrite (scan_next _ _ 1%nat) by reflexivity.
  rewrite scan_body_collide by collides.
  rewrite merge_self_lighter; [ | reflexivity | arith ].
  rewrite absorb_eval; [ | discriminate | arith ]. cbn [bind fst snd].
  rewrite scan_end by reflexivity. cbn [bind fst snd].
  rewrite integrate_eval by arith. unfold two_asteroids_end. reflexivity.
Qed.

Lemma tick_two_asteroids : tick sun_and_two_asteroids = Ok two_asteroids_end.
Proof.
  unfold tick. change (bodies sun_and_two_asteroids) with [0; 1; 2]%nat.
  cbn [update_all]. rewrite update_static by reflexivity. cbn [bind].
  rewrite update_first_asteroid. cbn [bind].
  rewrite update_second_asteroid. reflexivity.
Qed.

(** C2 (the code departs from the claim).  One tick on the sun and two
    overlapping asteroids of mass 1: the first asteroid absorbs the second
    and the second leaves the live collection, but the update pass still
    updates the second, which merges into the first once more.  The live
    bodies weigh 10002 before the tick and 10003 after it. *)
Theorem tick_does_not_conserve_mass :
  tick sun_and_two_asteroids = Ok two_asteroids_end
  /\ total_mass sun_and_two_asteroids = 10002
  /\ total_mass two_asteroids_end = 10003
  /\ total_mass two_asteroids_end <> total_mass sun_and_two_asteroids.
Proof.
  split; [ exact tick_two_asteroids | ].
  unfold total_mass. simpl. repeat split; lra.
Qed.

(** C4 (the code departs from the claim).  In that tick the second
    asteroid is removed from the live collection during the first
    asteroid's update, its trail still empty; the pass then updates it all
    the same: at the end of the tick it is not live, yet it has moved its
    trail on by one entry and has been merged into the first asteroid a
    second time (mass 2 after the first update, 3 after the tick). *)
Theorem removed_body_is_updated_again :
  update 1 sun_and_two_asteroids = Ok two_asteroids_mid
  /\ ~ In 2%nat (bodies two_asteroids_mid)
  /\ trail (heap two_asteroids_mid 2) = []
  /\ mass (heap two_asteroids_mid 1) = 2
  /\ tick sun_and_two_asteroids = Ok two_asteroids_end
  /\ ~ In 2%nat (bodies two_asteroids_end)
  /\ length (trail (heap two_asteroids_end 2)) = 1%nat
  /\ mass (heap two_asteroids_end 1) = 3.
Proof.
  split; [ exact update_first_asteroid | ].
  split; [ simpl; intuition discriminate | ].
  split; [ reflexivity | ].
  split; [ simpl; lra | ].
  split; [ exact tick_two_asteroids | ].
  split; [ simpl; intuition discriminate | ].
  split; [ reflexivity | simpl; lra ].
Qed.

(** *** A subject absorbed in the middle of its scan *)

Lemma update_drifting_asteroid :
  update 3 sun_planet_two_asteroids = Ok drifting_asteroid_updated.
Proof.
  rewrite update_running by reflexivity.
  change (length (bodies sun_planet_two_asteroids)) with 4%nat.
  rewrite (scan_next _ _ 0%nat) by reflexivity.
  rewrite scan_body_collide by collides.
  rewrite merge_static_other by reflexivity. cbn [bind fst snd].
  rewrite (scan_next _ _ 1%nat) by reflexivity.
  rewrite scan_body_collide by collides.
  rewrite merge_self_lighter; [ | reflexivity | arith ].
  rewrite absorb_eval; [ | discriminate | arith ]. cbn [bind fst snd].
  rewrite (scan_next _ _ 2%nat) by reflexivity.
  rewrite scan_body_collide by collides.
  rewrite merge_self_not_lighter; [ | reflexivity | arith ].
  rewrite absorb_eval; [ | discriminate | arith ]. cbn [bind fst snd].
  rewrite scan_end by reflexivity. cbn [bind fst snd].
  rewrite integrate_eval by arith. unfold drifting_asteroid_updated.
  reflexivity.
Qed.

(** C7 (the code departs from the claim).  The drifting asteroid (object 3)
    is absorbed by the heavier planet at the second round of its own scan
    and leaves the live collection; its scan goes on all the same: at the
    next round it absorbs the other asteroid, which is removed too, and
    after the loop it is integrated (it moves from x = 3 to x = 11/3 and
    gets a trail entry).  The live collection ends as sun and planet. *)
Theorem absorbed_subject_keeps_scanning :
  update 3 sun_planet_two_asteroids = Ok drifting_asteroid_updated
  /\ mass (heap (absorb_world 1 3 sun_planet_two_asteroids) 1) = 6
  /\ ~ In 3%nat (bodies (absorb_world 1 3 sun_planet_two_asteroids))
  /\ bodies drifting_asteroid_updated = [0; 1]%nat
  /\ mass (heap drifting_asteroid_updated 3) = 2
  /\ x (heap sun_planet_two_asteroids 3) = 3
  /\ x (heap drifting_asteroid_updated 3) = 11 / 3
  /\ length (trail (heap drifting_asteroid_updated 3)) = 1%nat.
Proof.
  split; [ exact update_drifting_asteroid | ].
  split; [ simpl; lra | ].
  split; [ simpl; intuition discriminate | ].
  split; [ reflexivity | ].
  split; [ simpl; lra | ].
  split; [ reflexivity | ].
  split; [ simpl; lra | reflexivity ].
Qed.

(** ** Construction and spawning *)

Lemma math_sqrt_ok (a : R) : 0 <= a -> math_sqrt a = Ok (sqrt a).
Proof.
  intros Ha. unfold math_sqrt.
  destruct (Rlt_dec a 0) as [L | _]; [ lra | reflexivity ].
Qed.

Lemma G_pos : 0 < G.
Proof. unfold G. lra. Qed.

Lemma heap_spawn_new (b : Body) (w : World) :
  heap (spawn b w) (next_ref w) = b.
Proof. apply upd_same. Qed.

Lemma add_planet_new_body (pos : option (Z * Z)) (angle : R) (dist : Z)
    (w w' : World) :
  add_planet pos angle dist w = Ok w' ->
  exists x0 y0 vx0 vy0, heap w' (next_ref w) = planet_at x0 y0 vx0 vy0.
Proof.
  unfold add_planet. intros E.
  destruct (match pos with Some _ => _ | None => _ end) as [xy | e | ];
    try discriminate.
  cbn [bind] in E. destruct (div _ _) as [q | e | ]; try discriminate.
  cbn [bind] in E. destruct (math_sqrt q) as [speed | e | ]; try discriminate.
  cbn [bind] in E. injection E as <-. rewrite heap_spawn_new.
  do 4 eexists. reflexivity.
Qed.

(** C9 (as the spec states it) fails: the constructor takes mass 0 and
    radius -1 and returns the body, and the first update of that body
    divides by its mass. *)
Lemma nonpositive_body_is_constructed :
  mass (Body_init 0 0 (-1) (0, 0, 0)%Z 0 0 0 false) = 0
  /\ radius (Body_init 0 0 (-1) (0, 0, 0)%Z 0 0 0 false) = -1
  /\ ~ positive_body (Body_init 0 0 (-1) (0, 0, 0)%Z 0 0 0 false)
  /\ update 0 (world_of [ Body_init 0 0 (-1) (0, 0, 0)%Z 0 0 0 false ])
     = Raise ZeroDivisionError.
Proof.
  split; [ reflexivity | ]. split; [ reflexivity | ].
  split; [ intros [Hm _]; simpl in Hm; lra | ].
  rewrite update_running by reflexivity.
  change (length (bodies (world_of [ Body_init 0 0 (-1) (0, 0, 0)%Z 0 0 0 false ])))
    with 1%nat.
  rewrite (scan_next _ _ 0%nat) by reflexivity.
  rewrite scan_body_self. cbn [bind fst snd].
  rewrite scan_end by reflexivity. cbn [bind fst snd].
  apply integrate_raises. reflexivity.
Qed.

(** C9 (as the code has it).  The constructor checks nothing: it stores
    the mass and the radius it is given.  Positivity is kept by the callers
    instead: the sun, every planet and every asteroid the program creates
    has positive mass and radius, and when all live bodies have positive
    mass and radius a tick raises no division fault and leaves all live
    bodies with positive mass and radius. *)
Theorem positivity_is_kept_by_the_callers :
  (forall x0 y0 r0 c0 m0 vx0 vy0 st0,
     mass (Body_init x0 y0 r0 c0 m0 vx0 vy0 st0) = m0
     /\ radius (Body_init x0 y0 r0 c0 m0 vx0 vy0 st0) = r0)
  /\ positive_body sun_body
  /\ (forall rx ry rvx rvy w,
        positive_body (heap (add_asteroid rx ry rvx rvy w) (next_ref w)))
  /\ (forall pos angle dist w w',
        add_planet pos angle dist w = Ok w' ->
        positive_body (heap w' (next_ref w)))
  /\ (forall w,
        positive_on (fun r => In r (bodies w)) w ->
        exists w',
          tick w = Ok w' /\ positive_on (fun r => In r (bodies w')) w').
Proof.
  split; [ intros; split; reflexivity | ].
  split; [ split; simpl; lra | ].
  split.
  { intros rx ry rvx rvy w. unfold add_asteroid. rewrite heap_spawn_new.
    split; simpl; lra. }
  split.
  { intros pos angle dist w w' E.
    destruct (add_planet_new_body _ _ _ _ _ E) as [x0 [y0 [vx0 [vy0 ->]]]].
    split; simpl; lra. }
  intros w Hpos. destruct (tick_positive w Hpos) as [w' [E [Hpos' Hincl]]].
  exists w'. split; [ exact E | ].
  intros r Hr. apply Hpos'. apply Hincl. exact Hr.
Qed.

Lemma sun_and_two_asteroids_positive :
  positive_on (fun r => In r (bodies sun_and_two_asteroids))
              sun_and_two_asteroids.
Proof.
  intros r Hr. simpl in Hr.
  destruct Hr as [<- | [<- | [<- | []]]]; split; simpl; lra.
Qed.

Lemma positivity_is_kept_by_the_callers_witness :
  exists w',
    tick sun_and_two_asteroids = Ok w'
    /\ positive_on (fun r => In r (bodies w')) w'.
Proof.
  destruct positivity_is_kept_by_the_callers as [_ [_ [_ [_ Htick]]]].
  apply (Htick sun_and_two_asteroids).
  intros r Hr. simpl in Hr.
  destruct Hr as [<- | [<- | [<- | []]]]; split; simpl; lra.
Defined.

Lemma static_immunity_witness :
  exists w',
    ticks 1 sun_and_two_asteroids = Ok w'
    /\ heap w' 0%nat = heap sun_and_two_asteroids 0
    /\ mass (heap w' 0%nat) = mass (heap sun_and_two_asteroids 0)
    /\ is_static (heap w' 0%nat) = true
    /\ (In 0%nat (bodies sun_and_two_asteroids) -> In 0%nat (bodies w')).
Proof.
  exists two_asteroids_end.
  assert (E : ticks 1 sun_and_two_asteroids = Ok two_asteroids_end).
  { cbn [ticks]. rewrite tick_two_asteroids. reflexivity. }
  split; [ exact E | ].
  destruct (static_immunity 0 sun_and_two_asteroids) as [Hticks _].
  - reflexivity.
  - apply (Hticks 1%nat two_asteroids_end E).
Defined.

(** C10 (the code departs from the claim).  A planet placed with the
    mouse 100 pixels to the right of the sun, when the random angle drawn
    is pi/2: the speed is sqrt(G*M/d) with d = 100, but the velocity takes
    its direction from the random angle and not from the clicked position;
    here it points straight at the sun instead of across the radius. *)
Theorem clicked_planet_is_not_on_a_circular_orbit :
  exists w',
    add_planet (Some (700, 400)%Z) (PI / 2) 100 initial_world = Ok w'
    /\ bodies w' = [0; 1]%nat
    /\ x (heap w' 1%nat) = 100
    /\ y (heap w' 1%nat) = 0
    /\ vx (heap w' 1%nat) = - sqrt (G * mass (heap initial_world sun) / 100)
    /\ vy (heap w' 1%nat) = 0
    /\ x (heap w' 1%nat) * vx (heap w' 1%nat)
       + y (heap w' 1%nat) * vy (heap w' 1%nat) < 0.
Proof.
  unfold add_planet. cbn [zoom offset_x offset_y initial_world].
  rewrite !div_ok by lra. cbn [bind fst snd].
  assert (Hx : (700 - WIDTH / 2) / 1 - 0 = 100) by (unfold WIDTH; lra).
  assert (Hy : (400 - HEIGHT / 2) / 1 - 0 = 0) by (unfold HEIGHT; lra).
  rewrite Hx, Hy, hypot_axis, Rabs_right by lra.
  assert (Hq : 0 < G * mass (heap initial_world sun) / 100).
  { simpl. pose proof G_pos. apply Rdiv_lt_0_compat; nra. }
  rewrite div_ok by lra. cbn [bind].
  rewrite math_sqrt_ok by (apply Rlt_le; exact Hq). cbn [bind].
  eexists. split; [ reflexivity | ].
  pose proof (sqrt_lt_R0 _ Hq) as Hs.
  simpl in Hs |- *. rewrite sin_PI2, cos_PI2.
  repeat split; try lra.
Qed.

(** * Further properties of the engine *)

(** ** Pause *)

Lemma update_paused (self : ref) (w : World) :
  paused w = true -> update self w = Ok w.
Proof.
  intros Hp. unfold update. rewrite Hp, orb_true_r. reflexivity.
Qed.

Lemma update_all_paused (snapshot : list ref) (w : World) :
  paused w = true -> update_all snapshot w = Ok w.
Proof.
  intros Hp. induction snapshot as [ | body rest IH ]; [ reflexivity | ].
  simpl. rewrite update_paused by exact Hp. exact IH.
Qed.

(** While the simulation is paused, ticks change nothing at all: no body
    moves, merges or grows its trail, whatever overlaps. *)
Theorem paused_ticks_change_nothing (n : nat) (w : World) :
  paused w = true -> ticks n w = Ok w.
Proof.
  intros Hp. induction n as [ | n IH ]; [ reflexivity | ].
  simpl. unfold tick. rewrite update_all_paused by exact Hp. exact IH.
Qed.

Lemma paused_ticks_change_nothing_witness :
  ticks 3 (set_paused true sun_and_two_asteroids)
  = Ok (set_paused true sun_and_two_asteroids).
Proof.
  apply (paused_ticks_change_nothing 3 (set_paused true sun_and_two_asteroids)).
  reflexivity.
Defined.

(** ** What a merge leaves alone *)

Lemma shape_kept_refl (w : World) : shape_kept w w.
Proof. intros r. repeat split. Qed.

Lemma shape_kept_trans (w1 w2 w3 : World) :
  shape_kept w1 w2 -> shape_kept w2 w3 -> shape_kept w1 w3.
Proof.
  intros H12 H23 r.
  destruct (H12 r) as [A1 [A2 [A3 [A4 A5]]]].
  destruct (H23 r) as [B1 [B2 [B3 [B4 B5]]]].
  repeat split; congruence.
Qed.

Lemma absorb_shape_kept (winner loser : ref) (w w' : World) :
  winner <> loser -> absorb winner loser w = Ok w' -> shape_kept w w'.
Proof.
  intros Hne E. apply absorb_inv in E; [ | exact Hne ].
  destruct E as [_ [Hb [Hframe _]]]. intros r.
  destruct (Nat.eq_dec r winner) as [-> | Hr].
  - rewrite Hb. repeat split.
  - rewrite Hframe by exact Hr. repeat split.
Qed.

Lemma merge_shape_kept (self other : ref) (w w' : World) :
  self <> other -> merge self other w = Ok w' -> shape_kept w w'.
Proof.
  intros Hne E. destruct (is_static (heap w other)) eqn:St.
  - rewrite merge_static_other in E by exact St. injection E as <-.
    apply shape_kept_refl.
  - rewrite merge_absorb in E by exact St.
    apply absorb_shape_kept in E; [ exact E | ].
    apply winner_loser_distinct. exact Hne.
Qed.

Lemma scan_body_shape_kept (self other : ref) (f f' : R * R) (w w' : World) :
  scan_body self other f w = Ok (f', w') -> shape_kept w w'.
Proof.
  intros E. unfold scan_body in E.
  destruct (Nat.eqb other self) eqn:Eq.
  - injection E as _ <-. apply shape_kept_refl.
  - apply Nat.eqb_neq in Eq. cbv zeta in E.
    destruct (Req_dec_T _ 0) as [_ | _].
    + injection E as _ <-. apply shape_kept_refl.
    + destruct (Rlt_dec _ _) as [_ | _].
      * destruct (merge self other w) as [w1 | e | ] eqn:Em; try discriminate.
        simpl in E. injection E as _ <-.
        apply (merge_shape_kept self other); [ congruence | exact Em ].
      * destruct (div _ _) as [q | e | ]; try discriminate.
        simpl in E. injection E as _ <-. apply shape_kept_refl.
Qed.

Lemma scan_shape_kept (fuel : nat) (self : ref) :
  forall (i : nat) (f f' : R * R) (w w' : World),
    scan fuel self i f w = Ok (f', w') -> shape_kept w w'.
Proof.
  induction fuel as [ | fuel IH ]; intros i f f' w w' E; simpl in E.
  - discriminate.
  - destruct (nth_error (bodies w) i) as [other | ].
    + destruct (scan_body self other f w) as [[f1 w1] | e | ] eqn:Eb;
        try discriminate.
      simpl in E. apply shape_kept_trans with w1.
      * apply (scan_body_shape_kept _ _ _ _ _ _ Eb).
      * apply (IH _ _ _ _ _ E).
    + injection E as _ <-. apply shape_kept_refl.
Qed.

(** ** The integrator and the trail *)

(** An update of a running, non-static body moves that body by its new
    velocity; no other body changes its place or its trail, whatever merges
    the scan made.  With at most 150 entries before, the subject's trail
    afterwards is the old trail followed by the new position, cut to its
    150 most recent entries. *)
Theorem update_moves_only_the_subject (self : ref) (w w' : World) :
  is_static (heap w self) = false ->
  paused w = false ->
  update self w = Ok w' ->
  x (heap w' self) = x (heap w self) + vx (heap w' self)
  /\ y (heap w' self) = y (heap w self) + vy (heap w' self)
  /\ (forall r, r <> self ->
        x (heap w' r) = x (heap w r)
        /\ y (heap w' r) = y (heap w r)
        /\ trail (heap w' r) = trail (heap w r))
  /\ ((length (trail (heap w self)) <= 150)%nat ->
      trail (heap w' self)
      = skipn (S (length (trail (heap w self))) - 150)
              (trail (heap w self) ++ [(x (heap w' self), y (heap w' self))])
      /\ length (trail (heap w' self))
         = Nat.min (S (length (trail (heap w self)))) 150).
Proof.
  intros Hs Hp E. rewrite update_running in E by assumption.
  destruct (scan _ self 0 (0, 0) w) as [[f1 w1] | e | ] eqn:Es;
    try discriminate.
  cbn [bind fst snd] in E.
  pose proof (scan_shape_kept _ _ _ _ _ _ _ Es) as Hk.
  apply integrate_inv in E. destruct E as [_ [Hb [Hframe _]]].
  destruct (Hk self) as [Kx [Ky [_ [_ Kt]]]].
  split; [ rewrite Hb; unfold integrated_body; cbn [x vx]; rewrite Kx; reflexivity | ].
  split; [ rewrite Hb; unfold integrated_body; cbn [y vy]; rewrite Ky; reflexivity | ].
  split.
  - intros r Hr. rewrite Hframe by exact Hr.
    destruct (Hk r) as [Rx [Ry [_ [_ Rt]]]]. repeat split; assumption.
  - intros Hlen.
    assert (Htr : trail (heap w' self)
                  = skipn (S (length (trail (heap w self))) - 150)
                      (trail (heap w self)
                       ++ [(x (heap w' self), y (heap w' self))])).
    { rewrite Hb. unfold integrated_body. cbn [trail x y].
      rewrite Kx, Ky, Kt.
      set (tr := trail (heap w self) ++ _).
      assert (Hl : length tr = S (length (trail (heap w self)))).
      { unfold tr. rewrite length_app. simpl. lia. }
      rewrite Hl.
      destruct (Nat.ltb 150 (S (length (trail (heap w self))))) eqn:El.
      - apply Nat.ltb_lt in El.
        replace (S (length (trail (heap w self))) - 150)%nat with 1%nat by lia.
        destruct tr; reflexivity.
      - apply Nat.ltb_ge in El.
        replace (S (length (trail (heap w self))) - 150)%nat with 0%nat by lia.
        reflexivity. }
    split; [ exact Htr | ].
    rewrite Htr, length_skipn, length_app. simpl. lia.
Qed.

Lemma update_moves_only_the_subject_witness :
  x (heap two_asteroids_mid 1)
  = x (heap sun_and_two_asteroids 1) + vx (heap two_asteroids_mid 1)
  /\ trail (heap two_asteroids_mid 2) = trail (heap sun_and_two_asteroids 2).
Proof.
  destruct (update_moves_only_the_subject 1 sun_and_two_asteroids
              two_asteroids_mid eq_refl eq_refl update_first_asteroid)
    as [Hx [_ [Hothers _]]].
  split; [ exact Hx | ].
  apply (Hothers 2%nat). discriminate.
Defined.

(** ** One merge of two live bodies *)

Lemma NoDup_list_remove (r : ref) (l : list ref) :
  NoDup l -> NoDup (list_remove r l).
Proof.
  induction 1 as [ | a t Hnin Hnd IH ]; simpl; [ constructor | ].
  destruct (Nat.eqb a r); [ exact Hnd | ].
  constructor; [ | exact IH ].
  intros Hin. apply Hnin. apply (list_remove_incl r). exact Hin.
Qed.

Lemma mass_sum_remove (h : ref -> Body) (r : ref) (l : list ref) :
  In r l -> mass_sum h l = mass (h r) + mass_sum h (list_remove r l).
Proof.
  induction l as [ | a t IH ]; simpl; [ tauto | ].
  intros Hin. destruct (Nat.eqb a r) eqn:E.
  - apply Nat.eqb_eq in E. subst a. reflexivity.
  - apply Nat.eqb_neq in E. destruct Hin as [Ha | Ht]; [ congruence | ].
    simpl. rewrite (IH Ht). ring.
Qed.

Lemma mass_sum_frame (h h' : ref -> Body) (r : ref) (l : list ref) :
  ~ In r l -> (forall r', r' <> r -> h' r' = h r') ->
  mass_sum h' l = mass_sum h l.
Proof.
  intros Hnin Hframe. induction l as [ | a t IH ]; simpl; [ reflexivity | ].
  rewrite Hframe, IH.
  - reflexivity.
  - intros Hin. apply Hnin. right. exact Hin.
  - intros ->. apply Hnin. left. reflexivity.
Qed.

Lemma mass_sum_change (h h' : ref -> Body) (r : ref) (l : list ref) :
  NoDup l -> In r l -> (forall r', r' <> r -> h' r' = h r') ->
  mass_sum h' l = mass_sum h l + (mass (h' r) - mass (h r)).
Proof.
  intros Hnd Hin Hframe.
  rewrite (mass_sum_remove h' r l Hin), (mass_sum_remove h r l Hin).
  rewrite (mass_sum_frame h h' r (list_remove r l)); [ ring | | exact Hframe ].
  clear Hframe. induction Hnd as [ | a t Hnin Hnd IH ]; simpl; [ tauto | ].
  destruct (Nat.eqb a r) eqn:E.
  - apply Nat.eqb_eq in E. subst a. exact Hnin.
  - apply Nat.eqb_neq in E. destruct Hin as [Ha | Ht]; [ congruence | ].
    simpl. intros [Ha | Hr]; [ congruence | ]. apply (IH Ht Hr).
Qed.

(** A merge between two different bodies that are both in the live
    collection (each listed once) keeps the total live mass: either nothing
    happens, or the survivor gains exactly the mass of the body that leaves
    the collection. *)
Theorem merge_of_live_bodies_conserves_mass (self other : ref) (w w' : World) :
  NoDup (bodies w) ->
  In self (bodies w) -> In other (bodies w) -> self <> other ->
  merge self other w = Ok w' ->
  total_mass w' = total_mass w.
Proof.
  intros Hnd Hself Hother Hne E.
  destruct (is_static (heap w other)) eqn:St.
  - rewrite merge_static_other in E by exact St. injection E as <-. reflexivity.
  - rewrite merge_absorb in E by exact St.
    pose proof (winner_loser_distinct self other w Hne) as Hwl.
    apply absorb_inv in E; [ | exact Hwl ].
    destruct E as [_ [Hb [Hframe [Hbodies _]]]].
    set (win := winner_of self other w) in *.
    set (los := loser_of self other w) in *.
    assert (Hwin : In win (bodies w)).
    { unfold win. destruct (winner_loser_cases self other w)
        as [[-> _] | [-> _]]; assumption. }
    assert (Hlos : In los (bodies w)).
    { unfold los. destruct (winner_loser_cases self other w)
        as [[_ [-> _]] | [_ [-> _]]]; assumption. }
    unfold total_mass. fold (mass_sum (heap w') (bodies w')).
    fold (mass_sum (heap w) (bodies w)).
    rewrite Hbodies, (mass_sum_remove (heap w) los (bodies w) Hlos).
    rewrite (mass_sum_change (heap w) (heap w') win).
    + rewrite Hb. cbn [mass merged_body]. ring.
    + apply NoDup_list_remove. exact Hnd.
    + apply list_remove_keeps; assumption.
    + exact Hframe.
Qed.

Lemma merge_of_live_bodies_conserves_mass_witness :
  exists w',
    merge 0 1 momentum_pair = Ok w'
    /\ total_mass w' = total_mass momentum_pair.
Proof.
  destruct (merge_returns 0 1 momentum_pair) as [w' E].
  - discriminate.
  - simpl. lra.
  - simpl. lra.
  - exists w'. split; [ exact E | ].
    apply (merge_of_live_bodies_conserves_mass 0 1 momentum_pair w').
    + simpl. repeat constructor; simpl; intuition discriminate.
    + simpl. tauto.
    + simpl. tauto.
    + discriminate.
    + exact E.
Defined.

(** A resolved merge removes the lighter body and, when the masses are
    equal, the other one: the subject survives a tie.  The removed object
    itself is not modified, and the survivor keeps its place, colour,
    static flag and trail. *)
Theorem merge_removes_the_lighter_body (self other : ref) (w w' : World) :
  self <> other ->
  is_static (heap w other) = false ->
  merge self other w = Ok w' ->
  (mass (heap w self) < mass (heap w other) ->
     bodies w' = list_remove self (bodies w)
     /\ heap w' self = heap w self
     /\ mass (heap w' other) = mass (heap w other) + mass (heap w self))
  /\ (mass (heap w other) <= mass (heap w self) ->
      bodies w' = list_remove other (bodies w)
      /\ heap w' other = heap w other
      /\ mass (heap w' self) = mass (heap w self) + mass (heap w other))
  /\ shape_kept w w'.
Proof.
  intros Hne St E.
  pose proof (merge_shape_kept _ _ _ _ Hne E) as Hk.
  rewrite merge_unfold, St in E.
  destruct (Rlt_dec (mass (heap w self)) (mass (heap w other))) as [L | L].
  - apply absorb_inv in E; [ | congruence ].
    destruct E as [_ [Hb [Hframe [Hbodies _]]]].
    split; [ | split; [ intros; lra | exact Hk ] ].
    intros _. split; [ exact Hbodies | ].
    split; [ apply Hframe; exact Hne | rewrite Hb; reflexivity ].
  - apply absorb_inv in E; [ | exact Hne ].
    destruct E as [_ [Hb [Hframe [Hbodies _]]]].
    split; [ intros; lra | split; [ | exact Hk ] ].
    intros _. split; [ exact Hbodies | ].
    split; [ apply Hframe; congruence | rewrite Hb; reflexivity ].
Qed.

Lemma merge_removes_the_lighter_body_witness :
  exists w',
    merge 1 2 sun_and_two_asteroids = Ok w'
    /\ bodies w' = [0; 1]%nat
    /\ mass (heap w' 1%nat) = 1 + 1.
Proof.
  destruct (merge_returns 1 2 sun_and_two_asteroids) as [w' E].
  - discriminate.
  - simpl. lra.
  - simpl. lra.
  - exists w'. split; [ exact E | ].
    destruct (merge_removes_the_lighter_body 1 2 sun_and_two_asteroids w')
      as [_ [Htie _]].
    + discriminate.
    + reflexivity.
    + exact E.
    + destruct Htie as [Hb [_ Hm]].
      * simpl. lra.
      * split; [ exact Hb | exact Hm ].
Defined.

(** ** Gravity *)

Lemma hypot_pos (dx dy : R) : dx <> 0 \/ dy <> 0 -> 0 < hypot dx dy.
Proof.
  intros H. destruct (hypot_nonneg dx dy) as [L | E]; [ exact L | ].
  symmetry in E. apply hypot_zero in E. destruct E. destruct H; contradiction.
Qed.

Lemma hypot_axis_y (dy : R) : hypot 0 dy = Rabs dy.
Proof.
  unfold hypot. replace (0 * 0 + dy * dy) with (Rsqr dy) by (unfold Rsqr; ring).
  apply sqrt_Rsqr_abs.
Qed.

Lemma hypot_opp (dx dy : R) : hypot (- dx) (- dy) = hypot dx dy.
Proof. unfold hypot. f_equal. ring. Qed.

Lemma sqrt_one_plus_slope (x0 y0 : R) :
  x0 <> 0 -> sqrt (1 + Rsqr (y0 / x0)) = hypot x0 y0 / Rabs x0.
Proof.
  intros Hx.
  replace (1 + Rsqr (y0 / x0)) with ((x0 * x0 + y0 * y0) / Rsqr x0)
    by (unfold Rsqr; field; exact Hx).
  rewrite sqrt_div_alt by (apply Rlt_0_sqr; exact Hx).
  rewrite sqrt_Rsqr_abs. reflexivity.
Qed.

(** [atan2] returns the direction of its point: its cosine and sine are
    the coordinates divided by the distance from the origin. *)
Lemma atan2_direction (y0 x0 : R) :
  x0 <> 0 \/ y0 <> 0 ->
  cos (atan2 y0 x0) = x0 / hypot x0 y0
  /\ sin (atan2 y0 x0) = y0 / hypot x0 y0.
Proof.
  intros Hnz. pose proof (hypot_pos x0 y0 Hnz) as Hh.
  unfold atan2.
  destruct (Rlt_dec 0 x0) as [Hx | Hx].
  - rewrite cos_atan, sin_atan, sqrt_one_plus_slope by lra.
    rewrite Rabs_right by lra. split; field; lra.
  - destruct (Rlt_dec x0 0) as [Hx' | Hx'].
    + destruct (Rlt_dec y0 0) as [Hy | Hy].
      * rewrite cos_minus, sin_minus, cos_PI, sin_PI.
        rewrite cos_atan, sin_atan, sqrt_one_plus_slope by lra.
        rewrite Rabs_left by lra. split; field; lra.
      * rewrite neg_cos, neg_sin.
        rewrite cos_atan, sin_atan, sqrt_one_plus_slope by lra.
        rewrite Rabs_left by lra. split; field; lra.
    + assert (x0 = 0) by lra. subst x0.
      assert (Hy0 : y0 <> 0) by (destruct Hnz; [ lra | assumption ]).
      rewrite hypot_axis_y in *.
      destruct (Rlt_dec 0 y0) as [Hy | Hy].
      * rewrite cos_PI2, sin_PI2, Rabs_right by lra. split; field; lra.
      * destruct (Rlt_dec y0 0) as [Hy' | Hy']; [ | lra ].
        rewrite cos_neg, sin_neg, cos_PI2, sin_PI2, Rabs_left by lra.
        split; field; lra.
Qed.

Lemma distance_to_sym (self other : ref) (w : World) :
  distance_to other self w = distance_to self other w.
Proof.
  unfold distance_to. rewrite <- hypot_opp. f_equal; ring.
Qed.

(** For a pair that does not collide, one round of the scan adds to the
    accumulated force a vector of magnitude [G * m_self * m_other / d^2]
    along the unit vector from the subject to the other body, and leaves
    the world as it is. *)
Theorem gravity_pulls_toward_the_other
    (self other : ref) (f : R * R) (w : World) :
  other <> self ->
  radius (heap w self) + radius (heap w other) <= distance_to self other w ->
  distance_to self other w <> 0 ->
  scan_body self other f w =
  Ok ((fst f + (x (heap w other) - x (heap w self)) / distance_to self other w
               * (G * mass (heap w self) * mass (heap w other)
                  / distance_to self other w ^ 2),
       snd f + (y (heap w other) - y (heap w self)) / distance_to self other w
               * (G * mass (heap w self) * mass (heap w other)
                  / distance_to self other w ^ 2)),
      w).
Proof.
  intros Hne Hfar Hnz.
  rewrite scan_body_gravity by assumption. cbv zeta.
  destruct (atan2_direction (y (heap w other) - y (heap w self))
                            (x (heap w other) - x (heap w self))) as [Hc Hs].
  - destruct (Req_dec_T (x (heap w other) - x (heap w self)) 0) as [Ex | Nx];
      [ | left; exact Nx ].
    destruct (Req_dec_T (y (heap w other) - y (heap w self)) 0) as [Ey | Ny];
      [ | right; exact Ny ].
    exfalso. apply Hnz. unfold distance_to. apply hypot_zero. split; assumption.
  - rewrite Hc, Hs. reflexivity.
Qed.

Lemma gravity_pulls_toward_the_other_witness :
  scan_body 1 0 (0, 0) sun_and_far_planet =
  Ok ((0 + (0 - 100) / distance_to 1 0 sun_and_far_planet
           * (G * 5 * 10000 / distance_to 1 0 sun_and_far_planet ^ 2),
       0 + (0 - 0) / distance_to 1 0 sun_and_far_planet
           * (G * 5 * 10000 / distance_to 1 0 sun_and_far_planet ^ 2)),
      sun_and_far_planet).
Proof.
  apply (gravity_pulls_toward_the_other 1 0 (0, 0) sun_and_far_planet).
  - discriminate.
  - on_axis. simpl. lra.
  - on_axis. simpl. lra.
Defined.

(** Action and reaction: in one world, the force a round adds for the
    subject toward the other body is the opposite of the force the
    symmetric round adds for the other body toward the subject. *)
Theorem gravity_is_mutual (self other : ref) (w : World) :
  other <> self ->
  radius (heap w self) + radius (heap w other) <= distance_to self other w ->
  distance_to self other w <> 0 ->
  exists fx fy,
    scan_body self other (0, 0) w = Ok ((0 + fx, 0 + fy), w)
    /\ scan_body other self (0, 0) w = Ok ((0 + - fx, 0 + - fy), w).
Proof.
  intros Hne Hfar Hnz.
  rewrite (gravity_pulls_toward_the_other self other) by assumption.
  rewrite (gravity_pulls_toward_the_other other self);
    [ | congruence | rewrite distance_to_sym; lra
      | rewrite distance_to_sym; exact Hnz ].
  rewrite (distance_to_sym self other). cbn [fst snd].
  do 2 eexists. split; [ reflexivity | ].
  f_equal. f_equal; f_equal; field; exact Hnz.
Qed.

Lemma gravity_is_mutual_witness :
  exists fx fy,
    scan_body 1 0 (0, 0) sun_and_far_planet
    = Ok ((0 + fx, 0 + fy), sun_and_far_planet)
    /\ scan_body 0 1 (0, 0) sun_and_far_planet
       = Ok ((0 + - fx, 0 + - fy), sun_and_far_planet).
Proof.
  apply (gravity_is_mutual 1 0 sun_and_far_planet).
  - discriminate.
  - on_axis. simpl. lra.
  - on_axis. simpl. lra.
Defined.

(** ** Removal under the scan's own iteration *)





(** ** What an update pass can and cannot do *)

Lemma globals_kept_refl (w : World) : globals_kept w w.
Proof. repeat split. Qed.

Lemma globals_kept_trans (w1 w2 w3 : World) :
  globals_kept w1 w2 -> globals_kept w2 w3 -> globals_kept w1 w3.
Proof.
  intros [A1 [A2 [A3 [A4 A5]]]] [B1 [B2 [B3 [B4 B5]]]].
  repeat split; congruence.
Qed.

Lemma globals_remove_if_present (r : ref) (w : World) :
  globals_kept w (remove_if_present r w).
Proof.
  unfold remove_if_present. destruct (in_bodies r w); repeat split.
Qed.

Lemma merge_globals_kept (self other : ref) (w w' : World) :
  merge self other w = Ok w' -> globals_kept w w'.
Proof.
  unfold merge. destruct (is_static (heap w other)).
  - intros E. injection E as <-. apply globals_kept_refl.
  - destruct (Rlt_dec _ _); cbv zeta;
      (destruct (div _ _) as [nvx | e | ]; cbn [bind]; try discriminate);
      (destruct (div _ _) as [nvy | e | ]; cbn [bind]; try discriminate);
      intros E; injection E as <-;
      match goal with
      | |- globals_kept _ (remove_if_present ?r ?w4) =>
          apply globals_kept_trans with w4;
          [ repeat split | apply globals_remove_if_present ]
      end.
Qed.

Lemma scan_body_globals_kept (self other : ref) (f f' : R * R) (w w' : World) :
  scan_body self other f w = Ok (f', w') -> globals_kept w w'.
Proof.
  intros E. unfold scan_body in E.
  destruct (Nat.eqb other self).
  - injection E as _ <-. apply globals_kept_refl.
  - cbv zeta in E. destruct (Req_dec_T _ 0) as [_ | _].
    + injection E as _ <-. apply globals_kept_refl.
    + destruct (Rlt_dec _ _) as [_ | _].
      * destruct (merge self other w) as [w1 | e | ] eqn:Em; try discriminate.
        simpl in E. injection E as _ <-.
        apply (merge_globals_kept _ _ _ _ Em).
      * destruct (div _ _) as [q | e | ]; try discriminate.
        simpl in E. injection E as _ <-. apply globals_kept_refl.
Qed.

Lemma scan_keeps (fuel : nat) (self : ref) :
  forall (i : nat) (f f' : R * R) (w w' : World),
    scan fuel self i f w = Ok (f', w') ->
    globals_kept w w'
    /\ (forall r, In r (bodies w') -> In r (bodies w))
    /\ (length (bodies w') <= length (bodies w))%nat
    /\ (NoDup (bodies w) -> NoDup (bodies w')).
Proof.
  induction fuel as [ | fuel IH ]; intros i f f' w w' E; simpl in E.
  - discriminate.
  - destruct (nth_error (bodies w) i) as [other | ].
    + destruct (scan_body self other f w) as [[f1 w1] | e | ] eqn:Eb;
        try discriminate.
      simpl in E. destruct (IH _ _ _ _ _ E) as [G2 [I2 [L2 N2]]].
      pose proof (scan_body_globals_kept _ _ _ _ _ _ Eb) as G1.
      destruct (scan_body_shrinks _ _ _ _ _ _ Eb) as [_ [L1 I1]].
      split; [ apply globals_kept_trans with w1; assumption | ].
      split; [ intros r Hr; apply I1, I2, Hr | ].
      split; [ lia | ].
      intros Hnd. apply N2.
      unfold scan_body in Eb. destruct (Nat.eqb other self) eqn:Eq.
      * injection Eb as _ <-. exact Hnd.
      * apply Nat.eqb_neq in Eq. cbv zeta in Eb.
        destruct (Req_dec_T _ 0) as [_ | _].
        -- injection Eb as _ <-. exact Hnd.
        -- destruct (Rlt_dec _ _) as [_ | _].
           ++ destruct (merge self other w) as [w2 | e | ] eqn:Em;
                try discriminate.
              simpl in Eb. injection Eb as _ <-.
              destruct (merge_bodies self other w w2) as [_ [-> | ->]];
                [ congruence | exact Em | exact Hnd
                | apply NoDup_list_remove; exact Hnd ].
           ++ destruct (div _ _) as [q | e | ]; try discriminate.
              simpl in Eb. injection Eb as _ <-. exact Hnd.
    + injection E as _ <-.
      split; [ apply globals_kept_refl | ].
      split; [ tauto | ]. split; [ lia | tauto ].
Qed.

Lemma update_keeps (self : ref) (w w' : World) :
  update self w = Ok w' ->
  globals_kept w w'
  /\ (forall r, In r (bodies w') -> In r (bodies w))
  /\ (length (bodies w') <= length (bodies w))%nat
  /\ (NoDup (bodies w) -> NoDup (bodies w')).
Proof.
  intros E. unfold update in E.
  destruct (is_static (heap w self) || paused w).
  - injection E as <-. split; [ apply globals_kept_refl | ].
    split; [ tauto | ]. split; [ lia | tauto ].
  - destruct (scan _ self 0 (0, 0) w) as [[f1 w1] | e | ] eqn:Es;
      try discriminate.
    cbn [bind fst snd] in E.
    destruct (scan_keeps _ _ _ _ _ _ _ Es) as [G1 [I1 [L1 N1]]].
    unfold integrate in E.
    destruct (div _ _) as [ax | e | ]; try discriminate. cbn [bind] in E.
    destruct (div _ _) as [ay | e | ]; try discriminate. cbn [bind] in E.
    injection E as <-.
    destruct (Nat.ltb 150 _);
      (split; [ apply globals_kept_trans with w1; [ exact G1 | repeat split ] | ];
       split; [ exact I1 | ]; split; [ exact L1 | exact N1 ]).
Qed.

Lemma update_all_keeps (snapshot : list ref) :
  forall w w',
    update_all snapshot w = Ok w' ->
    globals_kept w w'
    /\ (forall r, In r (bodies w') -> In r (bodies w))
    /\ (length (bodies w') <= length (bodies w))%nat
    /\ (NoDup (bodies w) -> NoDup (bodies w')).
Proof.
  induction snapshot as [ | body rest IH ]; intros w w' E; simpl in E.
  - injection E as <-. split; [ apply globals_kept_refl | ].
    split; [ tauto | ]. split; [ lia | tauto ].
  - destruct (update body w) as [w1 | e | ] eqn:Eu; try discriminate.
    cbn [bind] in E.
    destruct (update_keeps _ _ _ Eu) as [G1 [I1 [L1 N1]]].
    destruct (IH _ _ E) as [G2 [I2 [L2 N2]]].
    split; [ apply globals_kept_trans with w1; assumption | ].
    split; [ intros r Hr; apply I1, I2, Hr | ].
    split; [ lia | ]. intros Hnd. apply N2, N1, Hnd.
Qed.

(** An update pass never adds a body to the live collection, never lists
    one twice, and touches neither the pause flag nor the camera. *)
Theorem tick_never_adds_bodies (w w' : World) :
  tick w = Ok w' ->
  (forall r, In r (bodies w') -> In r (bodies w))
  /\ (length (bodies w') <= length (bodies w))%nat
  /\ (NoDup (bodies w) -> NoDup (bodies w'))
  /\ globals_kept w w'.
Proof.
  intros E. destruct (update_all_keeps _ _ _ E) as [G1 [I1 [L1 N1]]].
  repeat split; try assumption; apply G1.
Qed.

Lemma tick_never_adds_bodies_witness :
  (length (bodies two_asteroids_end) <= length (bodies sun_and_two_asteroids))%nat
  /\ globals_kept sun_and_two_asteroids two_asteroids_end.
Proof.
  destruct (tick_never_adds_bodies sun_and_two_asteroids two_asteroids_end
              tick_two_asteroids) as [_ [Hl [_ Hg]]].
  split; assumption.
Defined.









(** ** Spawning planets *)

Lemma Int_part_IZR (z : Z) : Int_part (IZR z) = z.
Proof. symmetry. apply Int_part_spec. lra. Qed.

Lemma py_int_IZR (z : Z) : py_int (IZR z) = z.
Proof.
  unfold py_int. destruct (Rlt_dec (IZR z) 0) as [_ | _].
  - rewrite <- opp_IZR, Int_part_IZR. lia.
  - apply Int_part_IZR.
Qed.

(** A planet spawned from the keyboard, [dist] away from a sun of mass M
    at the origin, starts on a circular orbit: it is at distance [dist],
    its speed squared is [G * M / dist] and its velocity is perpendicular
    to its radius vector.  It is appended to the live collection. *)
Theorem random_planet_is_on_a_circular_orbit
    (angle : R) (dist : Z) (w : World) :
  (0 < dist)%Z ->
  0 <= mass (heap w sun) ->
  exists w',
    add_planet None angle dist w = Ok w'
    /\ bodies w' = bodies w ++ [next_ref w]
    /\ hypot (x (heap w' (next_ref w))) (y (heap w' (next_ref w))) = IZR dist
    /\ vx (heap w' (next_ref w)) ^ 2 + vy (heap w' (next_ref w)) ^ 2
       = G * mass (heap w sun) / IZR dist
    /\ x (heap w' (next_ref w)) * vx (heap w' (next_ref w))
       + y (heap w' (next_ref w)) * vy (heap w' (next_ref w)) = 0.
Proof.
  intros Hd Hm. assert (Hd' : 0 < IZR dist) by (apply IZR_lt; exact Hd).
  assert (Hq : 0 <= G * mass (heap w sun) / IZR dist).
  { pose proof G_pos. apply Rmult_le_pos; [ nra | ].
    apply Rlt_le, Rinv_0_lt_compat. exact Hd'. }
  unfold add_planet. cbn [bind fst snd].
  rewrite hypot_polar by lra. rewrite div_ok by lra. cbn [bind].
  rewrite math_sqrt_ok by exact Hq. cbn [bind].
  eexists. split; [ reflexivity | ]. rewrite heap_spawn_new.
  cbn [spawn bodies Body_init x y vx vy].
  split; [ reflexivity | ]. split; [ apply hypot_polar; lra | ].
  pose proof (sqrt_sqrt _ Hq) as Hs. pose proof (sin2_cos2 angle) as Ht.
  unfold Rsqr in Ht.
  set (s := sqrt (G * mass (heap w sun) / IZR dist)) in *.
  split.
  - replace ((- sin angle * s) ^ 2 + (cos angle * s) ^ 2)
      with ((sin angle * sin angle + cos angle * cos angle) * (s * s)) by ring.
    rewrite Ht, Hs. ring.
  - ring.
Qed.

Lemma random_planet_is_on_a_circular_orbit_witness :
  exists w',
    add_planet None 0 100 initial_world = Ok w'
    /\ bodies w' = [0; 1]%nat
    /\ hypot (x (heap w' 1%nat)) (y (heap w' 1%nat)) = 100
    /\ vx (heap w' 1%nat) ^ 2 + vy (heap w' 1%nat) ^ 2 = G * 10000 / 100
    /\ x (heap w' 1%nat) * vx (heap w' 1%nat)
       + y (heap w' 1%nat) * vy (heap w' 1%nat) = 0.
Proof.
  apply (random_planet_is_on_a_circular_orbit 0 100 initial_world).
  - reflexivity.
  - simpl. lra.
Defined.


(** A left click succeeds unless it lands exactly on the world origin,
    where the sun sits: there the distance to the sun is zero and
    [add_planet] raises [ZeroDivisionError]. *)
Theorem click_on_the_origin_raises
    (mx my : Z) (angle : R) (dist : Z) (w : World) :
  zoom w <> 0 ->
  0 <= mass (heap w sun) ->
  ((IZR mx - WIDTH / 2) / zoom w - offset_x w = 0
   /\ (IZR my - HEIGHT / 2) / zoom w - offset_y w = 0 ->
   add_planet (Some (mx, my)) angle dist w = Raise ZeroDivisionError)
  /\ (~ ((IZR mx - WIDTH / 2) / zoom w - offset_x w = 0
         /\ (IZR my - HEIGHT / 2) / zoom w - offset_y w = 0) ->
      exists w',
        add_planet (Some (mx, my)) angle dist w = Ok w'
        /\ bodies w' = bodies w ++ [next_ref w]).
Proof.
  intros Nz Hm. unfold add_planet. rewrite !div_ok by exact Nz.
  cbn [bind fst snd]. split.
  - intros [-> ->]. replace (hypot 0 0) with 0
      by (symmetry; apply hypot_zero; tauto).
    rewrite div_zero. reflexivity.
  - intros Hne.
    set (px := (IZR mx - WIDTH / 2) / zoom w - offset_x w) in *.
    set (py := (IZR my - HEIGHT / 2) / zoom w - offset_y w) in *.
    assert (Hh : 0 < hypot px py).
    { apply hypot_pos. destruct (Req_dec_T px 0); [ | tauto ].
      destruct (Req_dec_T py 0); tauto. }
    rewrite div_ok by lra. cbn [bind].
    rewrite math_sqrt_ok.
    + cbn [bind]. eexists. split; reflexivity.
    + pose proof G_pos. apply Rmult_le_pos; [ nra | ].
      apply Rlt_le, Rinv_0_lt_compat. exact Hh.
Qed.

Lemma click_on_the_origin_raises_witness :
  add_planet (Some (600, 400)%Z) 0 100 initial_world = Raise ZeroDivisionError.
Proof.
  destruct (click_on_the_origin_raises 600 400 0 100 initial_world)
    as [Hraise _].
  - simpl. lra.
  - simpl. lra.
  - apply Hraise. unfold WIDTH, HEIGHT. simpl. split; lra.
Defined.



(** ** The event handlers *)

Lemma hd_error_removelast (l : list ref) :
  (1 < length l)%nat -> hd_error (removelast l) = hd_error l.
Proof.
  destruct l as [ | a [ | b t ] ]; simpl; intros H; try lia. reflexivity.
Qed.


Lemma removelast_incl (l : list ref) (r : ref) :
  In r (removelast l) -> In r l.
Proof.
  induction l as [ | a t IH ]; [ tauto | ].
  destruct t as [ | b t ]; [ simpl; tauto | ].
  change (removelast (a :: b :: t)) with (a :: removelast (b :: t)).
  intros [H | H]; [ left; exact H | right; apply IH; exact H ].
Qed.

Lemma NoDup_removelast (l : list ref) : NoDup l -> NoDup (removelast l).
Proof.
  induction 1 as [ | a t Hnin Hnd IH ]; [ constructor | ].
  destruct t as [ | b t ]; [ constructor | ].
  change (removelast (a :: b :: t)) with (a :: removelast (b :: t)).
  constructor; [ | exact IH ].
  intros Hin. apply Hnin. apply removelast_incl. exact Hin.
Qed.


Lemma last_nonempty_default {A : Type} (q : A) (l : list A) (d1 d2 : A) :
  last (q :: l) d1 = last (q :: l) d2.
Proof.
  revert q. induction l as [ | b t IH ]; intros q; [ reflexivity | ].
  change (last (b :: t) d1 = last (b :: t) d2). apply IH.
Qed.

Lemma last_cons_default {A : Type} (p : A) (l : list A) (d : A) :
  last (p :: l) d = last l p.
Proof.
  destruct l as [ | q t ]; [ reflexivity | ].
  change (last (q :: t) d = last (q :: t) p). apply last_nonempty_default.
Qed.

(** While the right button is held, any path of the cursor pans the
    camera by the cursor's total travel divided by the zoom: only the
    endpoints matter.  Bodies are untouched. *)
Theorem drag_pans_by_the_cursor_travel (d : Draws) (path : list (Z * Z)) :
  forall (a : App) (start : Z * Z),
    dragging a = true ->
    drag_start a = Some start ->
    zoom (world a) <> 0 ->
    exists a',
      handle_events (map (fun p => (MOUSEMOTION p, d)) path) a = Go a'
      /\ offset_x (world a')
         = offset_x (world a)
           + IZR (fst (last path start) - fst start) / zoom (world a)
      /\ offset_y (world a')
         = offset_y (world a)
           + IZR (snd (last path start) - snd start) / zoom (world a)
      /\ drag_start a' = Some (last path start)
      /\ dragging a' = true
      /\ zoom (world a') = zoom (world a)
      /\ bodies (world a') = bodies (world a)
      /\ heap (world a') = heap (world a).
Proof.
  induction path as [ | p rest IH ]; intros a start Hdrag Hstart Hz.
  - exists a. simpl. rewrite !Z.sub_diag. simpl.
    repeat split; try assumption; unfold Rdiv; ring.
  - cbn [map handle_events]. unfold handle_event at 1.
    rewrite Hdrag, Hstart. cbv zeta.
    rewrite div_ok by exact Hz. cbn [of_result and_then].
    cbn [set_camera zoom]. rewrite div_ok by exact Hz.
    cbn [of_result and_then].
    match goal with
    | |- context [handle_events _ ?a1] =>
        destruct (IH a1 p) as [a' [E [Hx [Hy [Hs [Hd' [Hzm [Hb Hh]]]]]]]];
        [ reflexivity | reflexivity
        | cbn [world set_camera zoom]; exact Hz | ]
    end.
    exists a'. split; [ exact E | ].
    cbn [world set_camera zoom offset_x offset_y bodies heap] in Hx, Hy, Hzm, Hb, Hh.
    rewrite (last_cons_default p rest start), Hx, Hy.
    split; [ rewrite !minus_IZR; field; exact Hz | ].
    split; [ rewrite !minus_IZR; field; exact Hz | ].
    repeat split; assumption.
Qed.

Lemma drag_pans_by_the_cursor_travel_witness :
  exists a',
    handle_events
      (map (fun p => (MOUSEMOTION p, some_draws)) [ (20, 10); (30, 40) ]%Z)
      (mkApp initial_world true (Some (10, 10)%Z)) = Go a'
    /\ offset_x (world a') = 0 + IZR (30 - 10) / 1
    /\ offset_y (world a') = 0 + IZR (40 - 10) / 1.
Proof.
  destruct (drag_pans_by_the_cursor_travel some_draws
              [ (20, 10); (30, 40) ]%Z
              (mkApp initial_world true (Some (10, 10)%Z)) (10, 10)%Z)
    as [a' [E [Hx [Hy _]]]].
  - reflexivity.
  - reflexivity.
  - simpl. lra.
  - exists a'. split; [ exact E | ]. split; [ exact Hx | exact Hy ].
Defined.

(** ** The invariant of the main loop *)

Lemma merge_head_kept (self other s : ref) (w w' : World) :
  self <> other ->
  is_static (heap w self) = false ->
  is_static (heap w s) = true ->
  hd_error (bodies w) = Some s ->
  merge self other w = Ok w' ->
  hd_error (bodies w') = Some s.
Proof.
  intros Hne Hself Hs Hhd E.
  destruct (is_static (heap w other)) eqn:St.
  - rewrite merge_static_other in E by exact St. injection E as <-. exact Hhd.
  - destruct (merge_bodies _ _ _ _ Hne E) as [_ [-> | ->]]; [ exact Hhd | ].
    assert (Hl : loser_of self other w <> s).
    { destruct (winner_loser_cases self other w) as [[_ [-> _]] | [_ [-> _]]];
        congruence. }
    destruct (bodies w) as [ | a t ]; [ discriminate | ].
    injection Hhd as ->. simpl.
    apply not_eq_sym in Hl. apply Nat.eqb_neq in Hl. rewrite Hl. reflexivity.
Qed.

Lemma scan_body_head_kept (self other s : ref) (f f' : R * R) (w w' : World) :
  is_static (heap w self) = false ->
  is_static (heap w s) = true ->
  hd_error (bodies w) = Some s ->
  scan_body self other f w = Ok (f', w') ->
  hd_error (bodies w') = Some s.
Proof.
  intros Hself Hs Hhd E. unfold scan_body in E.
  destruct (Nat.eqb other self) eqn:Eq.
  - injection E as _ <-. exact Hhd.
  - apply Nat.eqb_neq in Eq. cbv zeta in E.
    destruct (Req_dec_T _ 0) as [_ | _].
    + injection E as _ <-. exact Hhd.
    + destruct (Rlt_dec _ _) as [_ | _].
      * destruct (merge self other w) as [w1 | e | ] eqn:Em; try discriminate.
        simpl in E. injection E as _ <-.
        apply (merge_head_kept self other s w); try assumption. congruence.
      * destruct (div _ _) as [q | e | ]; try discriminate.
        simpl in E. injection E as _ <-. exact Hhd.
Qed.

Lemma scan_head_kept (fuel : nat) (self s : ref) :
  forall (i : nat) (f f' : R * R) (w w' : World),
    is_static (heap w self) = false ->
    is_static (heap w s) = true ->
    hd_error (bodies w) = Some s ->
    scan fuel self i f w = Ok (f', w') ->
    hd_error (bodies w') = Some s.
Proof.
  induction fuel as [ | fuel IH ]; intros i f f' w w' Hself Hs Hhd E;
    simpl in E.
  - discriminate.
  - destruct (nth_error (bodies w) i) as [other | ].
    + destruct (scan_body self other f w) as [[f1 w1] | e | ] eqn:Eb;
        try discriminate.
      simpl in E.
      destruct (scan_body_static_frame _ _ _ _ _ _ Hself Eb) as [Fl _].
      apply (IH _ _ _ _ _) with (4 := E).
      * rewrite Fl. exact Hself.
      * rewrite Fl. exact Hs.
      * apply (scan_body_head_kept _ _ _ _ _ _ _ Hself Hs Hhd Eb).
    + injection E as _ <-. exact Hhd.
Qed.

Lemma update_head_kept (self s : ref) (w w' : World) :
  is_static (heap w s) = true ->
  hd_error (bodies w) = Some s ->
  update self w = Ok w' ->
  hd_error (bodies w') = Some s.
Proof.
  intros Hs Hhd E. unfold update in E.
  destruct (is_static (heap w self)) eqn:Hself; cbn [orb] in E.
  - injection E as <-. exact Hhd.
  - destruct (paused w).
    + injection E as <-. exact Hhd.
    + destruct (scan _ self 0 (0, 0) w) as [[f1 w1] | e | ] eqn:Es;
        try discriminate.
      cbn [bind fst snd] in E.
      apply integrate_inv in E. destruct E as [_ [_ [_ [-> _]]]].
      apply (scan_head_kept _ _ _ _ _ _ _ _ Hself Hs Hhd Es).
Qed.

Lemma update_all_head_kept (snapshot : list ref) (s : ref) :
  forall w w',
    is_static (heap w s) = true ->
    hd_error (bodies w) = Some s ->
    update_all snapshot w = Ok w' ->
    hd_error (bodies w') = Some s.
Proof.
  induction snapshot as [ | body rest IH ]; intros w w' Hs Hhd E; simpl in E.
  - injection E as <-. exact Hhd.
  - destruct (update body w) as [w1 | e | ] eqn:Eu; try discriminate.
    cbn [bind] in E.
    destruct (update_static_frame _ _ _ Eu) as [Fl _].
    apply (IH w1 w'); [ rewrite Fl; exact Hs | | exact E ].
    apply (update_head_kept body s w w1 Hs Hhd Eu).
Qed.

Lemma tick_sound (a : App) :
  sound a ->
  exists w', tick (world a) = Ok w' /\ sound (with_world a w').
Proof.
  intros [Hz [Hsun [Hhd [Hnd [Hfresh [Hpos Hdrag]]]]]].
  destruct (tick_positive (world a) Hpos) as [w' [E [Hpos' Hincl]]].
  exists w'. split; [ exact E | ].
  destruct (tick_never_adds_bodies _ _ E) as [_ [_ [Hnd' Hg]]].
  destruct Hg as [_ [Gz [_ [_ Gn]]]].
  assert (Hst : is_static (heap (world a) sun) = true)
    by (rewrite Hsun; reflexivity).
  unfold sound. cbn [world with_world dragging drag_start].
  split; [ rewrite Gz; exact Hz | ].
  split.
  { destruct (update_all_static_frame _ _ _ E) as [_ Hf].
    destruct (Hf sun Hst) as [-> _]. exact Hsun. }
  split; [ apply (update_all_head_kept (bodies (world a)) sun (world a));
           assumption | ].
  split; [ apply Hnd'; exact Hnd | ].
  split; [ intros r Hr; rewrite Gn; apply Hfresh, Hincl, Hr | ].
  split; [ intros r Hr; apply Hpos', Hincl, Hr | exact Hdrag ].
Qed.

Lemma spawn_sound (a : App) (b : Body) :
  sound a -> positive_body b -> sound (with_world a (spawn b (world a))).
Proof.
  intros [Hz [Hsun [Hhd [Hnd [Hfresh [Hpos Hdrag]]]]]] Hb.
  assert (Hsun_in : In sun (bodies (world a))).
  { destruct (bodies (world a)) as [ | h t ]; [ discriminate | ].
    injection Hhd as ->. left. reflexivity. }
  assert (Hnew : ~ In (next_ref (world a)) (bodies (world a))).
  { intros Hin. apply Hfresh in Hin. lia. }
  unfold sound. cbn [world with_world dragging drag_start spawn zoom heap
                     bodies next_ref].
  split; [ exact Hz | ].
  split.
  { rewrite upd_other; [ exact Hsun | ]. intros Heq. apply Hnew.
    rewrite <- Heq. exact Hsun_in. }
  split.
  { destruct (bodies (world a)) as [ | h t ]; [ discriminate | exact Hhd ]. }
  split.
  { apply NoDup_app; [ exact Hnd | repeat constructor; simpl; tauto | ].
    intros r Hr [<- | []]. exact (Hnew Hr). }
  split.
  { intros r Hr. apply in_app_or in Hr. destruct Hr as [Hr | [<- | []]].
    - apply Hfresh in Hr. lia.
    - lia. }
  split; [ | exact Hdrag ].
  intros r Hr. cbn [spawn heap]. apply in_app_or in Hr.
  destruct Hr as [Hr | [<- | []]].
  - rewrite upd_other; [ apply Hpos; exact Hr | ].
    intros ->. exact (Hnew Hr).
  - rewrite upd_same. exact Hb.
Qed.

Lemma add_planet_spawns (pos : option (Z * Z)) (angle : R) (dist : Z)
    (w w' : World) :
  add_planet pos angle dist w = Ok w' ->
  exists x0 y0 vx0 vy0, w' = spawn (planet_at x0 y0 vx0 vy0) w.
Proof.
  unfold add_planet. intros E.
  destruct (match pos with Some _ => _ | None => _ end) as [xy | e | ];
    try discriminate.
  cbn [bind] in E. destruct (div _ _) as [q | e | ]; try discriminate.
  cbn [bind] in E. destruct (math_sqrt q) as [speed | e | ]; try discriminate.
  cbn [bind] in E. injection E as <-. do 4 eexists. reflexivity.
Qed.

Lemma planet_positive (x0 y0 vx0 vy0 : R) :
  positive_body (planet_at x0 y0 vx0 vy0).
Proof. split; simpl; lra. Qed.

Lemma add_planet_raises (pos : option (Z * Z)) (angle : R) (dist : Z)
    (w : World) (e : exn) :
  0 < zoom w -> 0 < mass (heap w sun) ->
  add_planet pos angle dist w = Raise e -> e = ZeroDivisionError.
Proof.
  intros Hz Hm. unfold add_planet.
  assert (Hxy : exists xy,
             match pos with
             | Some (mx, my) =>
                 px <- div (IZR mx - WIDTH / 2) (zoom w) ;;
                 py <- div (IZR my - HEIGHT / 2) (zoom w) ;;
                 Ok (px - offset_x w, py - offset_y w)
             | None => Ok (cos angle * IZR dist, sin angle * IZR dist)
             end = Ok xy).
  { destruct pos as [[mx my] | ].
    - rewrite !div_ok by lra. cbn [bind]. eexists. reflexivity.
    - eexists. reflexivity. }
  destruct Hxy as [xy ->]. cbn [bind].
  destruct (Req_dec_T (hypot (fst xy) (snd xy)) 0) as [E0 | N0].
  - rewrite E0, div_zero. cbn [bind]. intros E. injection E as <-.
    reflexivity.
  - rewrite div_ok by exact N0. cbn [bind]. rewrite math_sqrt_ok.
    + discriminate.
    + pose proof G_pos. pose proof (hypot_nonneg (fst xy) (snd xy)).
      apply Rmult_le_pos; [ nra | ].
      apply Rlt_le, Rinv_0_lt_compat. lra.
Qed.

Lemma add_planet_cases (pos : option (Z * Z)) (angle : R) (dist : Z)
    (w : World) :
  0 < zoom w -> 0 < mass (heap w sun) ->
  (exists w', add_planet pos angle dist w = Ok w')
  \/ add_planet pos angle dist w = Raise ZeroDivisionError.
Proof.
  intros Hz Hm.
  destruct (add_planet pos angle dist w) as [w' | e | ] eqn:E.
  - left. exists w'. reflexivity.
  - right. rewrite (add_planet_raises _ _ _ _ _ Hz Hm E). reflexivity.
  - exfalso. revert E. unfold add_planet.
    destruct pos as [[mx my] | ].
    + rewrite !div_ok by lra. cbn [bind]. unfold div, math_sqrt.
      destruct (Req_dec_T _ 0); cbn [bind]; [ discriminate | ].
      destruct (Rlt_dec _ 0); cbn [bind]; discriminate.
    + cbn [bind]. unfold div, math_sqrt.
      destruct (Req_dec_T _ 0); cbn [bind]; [ discriminate | ].
      destruct (Rlt_dec _ 0); cbn [bind]; discriminate.
Qed.

Lemma add_planet_random_returns (angle : R) (dist : Z) (w : World) :
  (0 < dist)%Z -> 0 < mass (heap w sun) ->
  exists w', add_planet None angle dist w = Ok w'.
Proof.
  intros Hd Hm. assert (Hd' : 0 < IZR dist) by (apply IZR_lt; exact Hd).
  unfold add_planet. cbn [bind fst snd].
  rewrite hypot_polar by lra. rewrite div_ok by lra. cbn [bind].
  rewrite math_sqrt_ok.
  - cbn [bind]. eexists. reflexivity.
  - pose proof G_pos. apply Rmult_le_pos; [ nra | ].
    apply Rlt_le, Rinv_0_lt_compat. exact Hd'.
Qed.

Lemma sound_change (a : App) (w' : World) :
  sound a ->
  0 < zoom w' ->
  heap w' = heap (world a) ->
  bodies w' = bodies (world a) ->
  next_ref w' = next_ref (world a) ->
  sound (with_world a w').
Proof.
  intros [Hz [Hsun [Hhd [Hnd [Hfresh [Hpos Hdrag]]]]]] Hz' Hh Hb Hn.
  unfold sound, positive_on. cbn [world with_world dragging drag_start].
  rewrite Hh, Hb, Hn. repeat split; try assumption; apply Hpos; assumption.
Qed.

Lemma sound_drag (a : App) (dr : bool) (st : option (Z * Z)) :
  sound a -> (dr = true -> st <> None) -> sound (mkApp (world a) dr st).
Proof.
  intros [Hz [Hsun [Hhd [Hnd [Hfresh [Hpos _]]]]]] Hd.
  unfold sound. cbn [world dragging drag_start].
  repeat split; try assumption; apply Hpos; assumption.
Qed.

Lemma sun_mass_positive (a : App) : sound a -> 0 < mass (heap (world a) sun).
Proof. intros [_ [-> _]]. simpl. lra. Qed.

Lemma handle_event_sound (ev : Event) (d : Draws) (a : App) :
  sound a -> valid_draws d ->
  match handle_event ev d a with
  | Go a' => sound a'
  | Halt h =>
      (ev = QUIT /\ h = SystemExit)
      \/ (exists pos, ev = MOUSEBUTTONDOWN 1 pos
                      /\ h = Uncaught ZeroDivisionError)
  end.
Proof.
  intros Hs [_ [Hdist _]].
  pose proof Hs as [Hz [Hsun [Hhd [Hnd [Hfresh [Hpos Hdrag]]]]]].
  pose proof (sun_mass_positive a Hs) as Hm.
  destruct ev as [ | key | button pos | button | pos | ]; cbn [handle_event].
  - left. split; reflexivity.
  - destruct key.
    + apply sound_change; try assumption; reflexivity.
    + destruct (add_planet_random_returns (draw_angle d) (draw_dist d)
                  (world a)) as [w' E]; [ lia | exact Hm | ].
      rewrite E. cbn [of_result and_then].
      destruct (add_planet_spawns _ _ _ _ _ E) as [x0 [y0 [vx0 [vy0 ->]]]].
      apply spawn_sound; [ exact Hs | apply planet_positive ].
    + apply spawn_sound; [ exact Hs | split; simpl; lra ].
    + destruct (Nat.ltb 1 (length (bodies (world a)))) eqn:El;
        [ | exact Hs ].
      apply Nat.ltb_lt in El.
      unfold sound, positive_on.
      cbn [world with_world dragging drag_start set_bodies zoom heap bodies
           next_ref].
      split; [ exact Hz | ]. split; [ exact Hsun | ].
      split; [ rewrite hd_error_removelast by exact El; exact Hhd | ].
      split; [ apply NoDup_removelast; exact Hnd | ].
      split; [ intros r Hr; apply Hfresh, removelast_incl, Hr | ].
      split; [ intros r Hr; apply Hpos, removelast_incl, Hr | exact Hdrag ].
    + apply sound_change; try assumption; try reflexivity.
      cbn [set_camera zoom]. lra.
    + apply sound_change; try assumption; try reflexivity.
      cbn [set_camera zoom]. lra.
    + exact Hs.
  - destruct (Z.eqb button 1) eqn:B1.
    + apply Z.eqb_eq in B1. subst button.
      destruct (add_planet_cases (Some pos) (draw_angle d) (draw_dist d)
                  (world a) Hz Hm) as [[w' E] | E];
        rewrite E; cbn [of_result and_then].
      * destruct (add_planet_spawns _ _ _ _ _ E) as [x0 [y0 [vx0 [vy0 ->]]]].
        apply spawn_sound; [ exact Hs | apply planet_positive ].
      * right. exists pos. split; reflexivity.
    + destruct (Z.eqb button 2).
      * apply sound_change; try assumption; try reflexivity.
        cbn [set_camera zoom]. lra.
      * destruct (Z.eqb button 3); [ | exact Hs ].
        apply sound_drag; [ exact Hs | discriminate ].
  - destruct (Z.eqb button 3); [ | exact Hs ].
    apply sound_drag; [ exact Hs | discriminate ].
  - destruct (dragging a) eqn:Hd; [ | exact Hs ].
    destruct (drag_start a) as [start | ] eqn:Hst;
      [ | exfalso; apply Hdrag; reflexivity ].
    cbv zeta. rewrite div_ok by lra. cbn [of_result and_then].
    cbn [set_camera zoom]. rewrite div_ok by lra. cbn [of_result and_then].
    unfold sound, positive_on.
    cbn [world dragging drag_start set_camera zoom heap bodies next_ref].
    repeat split; try assumption; try discriminate; apply Hpos; assumption.
  - exact Hs.
Qed.

Lemma handle_events_sound (evs : list (Event * Draws)) :
  forall a,
    sound a -> valid_events evs ->
    match handle_events evs a with
    | Go a' => sound a'
    | Halt h => h = SystemExit \/ h = Uncaught ZeroDivisionError
    end.
Proof.
  induction evs as [ | [ev d] rest IH ]; intros a Hs Hv; cbn [handle_events].
  - exact Hs.
  - inversion Hv as [ | ed l Hd Hrest ]; subst.
    pose proof (handle_event_sound ev d a Hs Hd) as H1.
    destruct (handle_event ev d a) as [a1 | h]; cbn [and_then].
    + apply IH; assumption.
    + destruct H1 as [[_ ->] | [pos [_ ->]]]; [ left | right ]; reflexivity.
Qed.

Lemma frame_sound (evs : list (Event * Draws)) (a : App) :
  sound a -> valid_events evs ->
  match frame evs a with
  | Go a' => sound a'
  | Halt h => h = SystemExit \/ h = Uncaught ZeroDivisionError
  end.
Proof.
  intros Hs Hv. unfold frame.
  pose proof (handle_events_sound evs a Hs Hv) as H1.
  destruct (handle_events evs a) as [a1 | h]; cbn [and_then]; [ | exact H1 ].
  destruct (tick_sound a1 H1) as [w' [E Hs']].
  rewrite E. cbn [of_result and_then]. exact Hs'.
Qed.

Lemma frames_sound (fs : list (list (Event * Draws))) :
  forall a,
    sound a -> Forall valid_events fs ->
    match frames fs a with
    | Go a' => sound a'
    | Halt h => h = SystemExit \/ h = Uncaught ZeroDivisionError
    end.
Proof.
  induction fs as [ | evs rest IH ]; intros a Hs Hv; cbn [frames].
  - exact Hs.
  - inversion Hv as [ | e l Hd Hrest ]; subst.
    pose proof (frame_sound evs a Hs Hd) as H1.
    destruct (frame evs a) as [a1 | h]; cbn [and_then]; [ | exact H1 ].
    apply IH; assumption.
Qed.

Lemma initial_app_sound : sound initial_app.
Proof.
  unfold sound, initial_app. cbn [world dragging drag_start].
  split; [ simpl; lra | ]. split; [ reflexivity | ].
  split; [ reflexivity | ].
  split; [ simpl; repeat constructor; simpl; tauto | ].
  split; [ simpl; intros r [<- | []]; unfold sun; lia | ].
  split; [ | discriminate ].
  intros r Hr. simpl in Hr. destruct Hr as [<- | []]. split; simpl; lra.
Qed.

(** Whatever the user does, the sun stays: after any number of frames of
    the main loop, with any events, the sun object is exactly as it was
    created (place, mass 10000, radius 20, static) and it is still the
    first body of the live collection. *)
Theorem the_sun_persists (fs : list (list (Event * Draws))) (a : App) :
  Forall valid_events fs ->
  frames fs initial_app = Go a ->
  heap (world a) sun = sun_body
  /\ hd_error (bodies (world a)) = Some sun
  /\ NoDup (bodies (world a)).
Proof.
  intros Hv E. pose proof (frames_sound fs initial_app initial_app_sound Hv) as H.
  rewrite E in H. destruct H as [_ [Hsun [Hhd [Hnd _]]]].
  repeat split; assumption.
Qed.



Lemma some_draws_valid : valid_draws some_draws.
Proof.
  unfold valid_draws, some_draws. cbn. pose proof PI_RGT_0.
  repeat split; try lra; lia.
Qed.

Lemma pause_and_add_valid : Forall valid_events pause_and_add.
Proof.
  apply Forall_cons; [ | apply Forall_nil ].
  repeat (apply Forall_cons; [ exact some_draws_valid | ]). apply Forall_nil.
Qed.


Lemma the_sun_persists_witness :
  exists a,
    frames pause_and_add initial_app = Go a
    /\ heap (world a) sun = sun_body
    /\ hd_error (bodies (world a)) = Some sun
    /\ NoDup (bodies (world a)).
Proof.
  eexists. split; [ reflexivity | ].
  apply (the_sun_persists pause_and_add).
  - exact pause_and_add_valid.
  - reflexivity.
Defined.


